(** * The Julia symbol table (src/symbol.c)

    A shallow embedding of the interning engine: the hash of a name, the
    pointer-linked search tree with its lookup loop, the find-or-insert
    routine with its re-validation under the table lock, and the gensym
    counter; then the invariant of the table and what follows from it.

    Conventions.
    - C integers are [Z] with the wrap-around written out.  The data model is
      LP64: [size_t], [uintptr_t] and [intptr_t] are 64 bits wide, the gensym
      counter is a [uint32_t].
    - Pointers to symbols are [Z] addresses, [NULL] is 0.  The permanent heap
      is a finite map from addresses to nodes; a pointer to a child slot
      ([_Atomic(jl_sym_t* ) *]) is a [slot].
    - A [const char *] argument is the list of bytes readable from it; the
      length travels separately, as in the C signatures.
    - [jl_exceptionf] is the [Throw] outcome.  [Stuck] is the outcome of a
      lookup loop that leaves the permanent heap or does not come back; it
      is shown not to happen on a well-formed table.
    - The operations run one after the other, and the atomic accesses are
      plain reads and writes.  Taking and releasing [symtab_lock] and
      calling the permanent allocator are recorded in the [trace] of the
      state, so that a path without them is told apart by its state. *)

From Stdlib Require Import ZArith Lia List Strings.Byte.
From stdpp Require Import base option list gmap strings.

Local Open Scope Z_scope.

(** ** C integer types *)

Definition SIZE_MAX : Z := 2 ^ 64 - 1.
Definition INTPTR_MAX : Z := 2 ^ 63 - 1.
Definition NULL : Z := 0.

(** Conversion to [size_t] / [uintptr_t]. *)
Definition to_size_t (z : Z) : Z := z mod 2 ^ 64.

(** Conversion of a [uintptr_t] to [intptr_t]. *)
Definition to_intptr_t (z : Z) : Z :=
  let u := z mod 2 ^ 64 in if u <? 2 ^ 63 then u else u - 2 ^ 64.

(** Conversion to [uint32_t]. *)
Definition to_uint32_t (z : Z) : Z := z mod 2 ^ 32.

(** ** Bytes and the C string functions used by the file *)

Definition byte_val (b : byte) : Z := Z.of_N (Byte.to_N b).

Definition is_nul (b : byte) : bool := Byte.eqb b x00.

(** [str[i]] for a NUL-terminated array holding [s]: the byte after the last
    one is the terminator. *)
Definition char_at (s : list byte) (i : nat) : byte := nth i s x00.

(** [memchr(str, 0, len) != NULL], on the [len] bytes already taken. *)
Definition memchr0 (s : list byte) : bool := existsb is_nul s.

(** [strlen(str)]: the number of bytes before the first terminator. *)
Fixpoint strlen (s : list byte) : Z :=
  match s with
  | [] => 0
  | c :: s' => if is_nul c then 0 else 1 + strlen s'
  end.

(** [strncmp(s1, s2, n)]: bytes compared as [unsigned char], stopping after
    [n] bytes or at a common terminator. *)
Fixpoint strncmp (s1 s2 : list byte) (n : nat) : Z :=
  match n with
  | O => 0
  | S n' =>
      let c1 := char_at s1 0 in
      let c2 := char_at s2 0 in
      if negb (Byte.eqb c1 c2) then byte_val c1 - byte_val c2
      else if is_nul c1 then 0
      else strncmp (tail s1) (tail s2) n'
  end.

(** The first [len] bytes of a buffer. *)
Definition bytes_of (str : list byte) (len : Z) : list byte :=
  take (Z.to_nat len) str.

(** ** What the file takes from the rest of the runtime *)

(** The declarations of julia.h and the hash functions of the support
    library are not part of this file: the sizes of the two structs, and
    [memhash] and [inthash], are parameters.  [runtime_layout] bounds the
    two sizes, so that the subtraction in [MAX_SYM_LEN] does not wrap. *)
Class Runtime := {
  sizeof_jl_sym_t : Z;
  sizeof_jl_taggedvalue_t : Z;
  memhash : list byte -> Z;
  inthash : Z -> Z;
  runtime_layout :
    0 < sizeof_jl_sym_t < 2 ^ 32 /\ 0 < sizeof_jl_taggedvalue_t < 2 ^ 32
}.

(** ** Symbols, the permanent heap and the registry *)

(** [jl_sym_t]: the two child pointers, the hash and the name stored after
    the header (without its terminator). *)
Record jl_sym_t := Sym {
  sym_left : Z;
  sym_right : Z;
  sym_hash : Z;
  sym_name : list byte
}.

(** What the operations do to the lock and to the allocator, in order. *)
Inductive event :=
  | EvLock             (* uv_mutex_lock(&symtab_lock) *)
  | EvUnlock           (* uv_mutex_unlock(&symtab_lock) *)
  | EvAlloc (nb : Z).  (* jl_gc_permobj(nb, ...) *)

(** The process-wide state: the permanent heap with its allocation pointer,
    the tree root [symtab], the counter [gs_ctr], and the events so far
    (most recent first). *)
Record state := State {
  heap : gmap Z jl_sym_t;
  perm_next : Z;
  symtab : Z;
  gs_ctr : Z;
  trace : list event
}.

Definition init_state : state :=
  {| heap := ∅; perm_next := 8; symtab := NULL; gs_ctr := 0; trace := [] |}.

Definition set_heap (m : gmap Z jl_sym_t) (st : state) : state :=
  {| heap := m; perm_next := perm_next st; symtab := symtab st;
     gs_ctr := gs_ctr st; trace := trace st |}.

Definition set_symtab (v : Z) (st : state) : state :=
  {| heap := heap st; perm_next := perm_next st; symtab := v;
     gs_ctr := gs_ctr st; trace := trace st |}.

Definition emit (e : event) (st : state) : state :=
  {| heap := heap st; perm_next := perm_next st; symtab := symtab st;
     gs_ctr := gs_ctr st; trace := e :: trace st |}.

(** A pointer to a child slot: [&symtab], [&node->left] or [&node->right]. *)
Inductive slot :=
  | SlotRoot
  | SlotLeft (node : Z)
  | SlotRight (node : Z).

Global Instance slot_eq_dec : EqDecision slot.
Proof. solve_decision. Defined.

Inductive exn :=
  | NameTooLong   (* ArgumentError: Symbol name too long *)
  | EmbeddedNul.  (* ArgumentError: Symbol name may not contain \0 *)

Inductive res (A : Type) :=
  | Ret (a : A) (st : state)
  | Throw (e : exn) (st : state)
  | Stuck.
Arguments Ret {A} a st.
Arguments Throw {A} e st.
Arguments Stuck {A}.

(** [jl_atomic_load_relaxed(ptree)]. *)
Definition load (st : state) (p : slot) : option Z :=
  match p with
  | SlotRoot => Some (symtab st)
  | SlotLeft a => sym_left <$> heap st !! a
  | SlotRight a => sym_right <$> heap st !! a
  end.

Definition set_left (v : Z) (s : jl_sym_t) : jl_sym_t :=
  {| sym_left := v; sym_right := sym_right s;
     sym_hash := sym_hash s; sym_name := sym_name s |}.

Definition set_right (v : Z) (s : jl_sym_t) : jl_sym_t :=
  {| sym_left := sym_left s; sym_right := v;
     sym_hash := sym_hash s; sym_name := sym_name s |}.

(** [jl_atomic_store_release(slot, node)]. *)
Definition store (p : slot) (v : Z) (st : state) : state :=
  match p with
  | SlotRoot => set_symtab v st
  | SlotLeft a => set_heap (alter (set_left v) a (heap st)) st
  | SlotRight a => set_heap (alter (set_right v) a (heap st)) st
  end.

Definition uv_mutex_lock (st : state) : state := emit EvLock st.
Definition uv_mutex_unlock (st : state) : state := emit EvUnlock st.

(** Modelled from the spec: the permanent-object allocator [jl_gc_permobj]
    of the garbage collector is not part of this file.  It returns a block
    that is never moved and never reclaimed; here blocks are carved one
    after the other from the permanent heap. *)
Definition jl_gc_permobj (nb : Z) (st : state) : Z * state :=
  (perm_next st,
   emit (EvAlloc nb)
     {| heap := heap st; perm_next := perm_next st + nb; symtab := symtab st;
        gs_ctr := gs_ctr st; trace := trace st |}).

(** Modelled from the spec: [uint2str] of the support library is not part
    of this file.  It formats [num] as digits in [base], written backwards
    from the end of a buffer of [len] bytes whose last byte is the
    terminator; the result is the digits. *)
Definition digit_char (d : Z) : byte :=
  match Byte.of_N (Z.to_N (if d <? 10 then 48 + d else 87 + d)) with
  | Some b => b
  | None => x00
  end.

Fixpoint uint2str_loop (room : nat) (num base : Z) (acc : list byte) : list byte :=
  match room with
  | O => acc
  | S room' =>
      let acc' := digit_char (num mod base) :: acc in
      if num / base =? 0 then acc' else uint2str_loop room' (num / base) base acc'
  end.

Definition uint2str (len : Z) (num base : Z) : list byte :=
  uint2str_loop (Z.to_nat (len - 1)) num base [].

Section Symbol.
Context {R : Runtime}.

(** ** symbol.c *)

Definition MAX_SYM_LEN : Z :=
  to_size_t (INTPTR_MAX - sizeof_jl_taggedvalue_t - sizeof_jl_sym_t - 1).

(** [~(uintptr_t)0/3*2]. *)
Definition hash_mask : Z := SIZE_MAX / 3 * 2.

Definition hash_symbol (str : list byte) (len : Z) : Z :=
  let oid := Z.lxor (to_size_t (memhash (bytes_of str len))) hash_mask in
  to_size_t (inthash (to_size_t (- oid))).

Definition symbol_nbytes (len : Z) : Z :=
  Z.land (to_size_t (sizeof_jl_sym_t + len + 1 + 7)) (to_size_t (-8)).

Definition mk_symbol (str : list byte) (len : Z) (st : state) : Z * state :=
  let nb := symbol_nbytes len in
  let '(sym, st1) := jl_gc_permobj nb st in
  (sym,
   set_heap (<[sym := {| sym_left := NULL; sym_right := NULL;
                         sym_hash := hash_symbol str len;
                         sym_name := bytes_of str len |}]> (heap st1)) st1).

(** One visit of the loop of [symtab_lookup]: [inl] is the node found,
    [inr] the child slot to descend into. *)
Definition symtab_cmp (h : Z) (str : list byte) (len : Z) (node : Z) (nd : jl_sym_t)
  : Z + slot :=
  let x := to_intptr_t (h - sym_hash nd) in
  let descend (x : Z) := if x <? 0 then SlotLeft node else SlotRight node in
  if x =? 0 then
    let x := strncmp str (sym_name nd) (Z.to_nat len) in
    if (x =? 0) && is_nul (char_at (sym_name nd) (Z.to_nat len)) then inl node
    else inr (descend x)
  else inr (descend x).

(** The loop of [symtab_lookup], from the slot [ptree]; the result is the
    node returned and the value left in [*slot]. *)
Fixpoint symtab_walk (fuel : nat) (st : state) (ptree : slot) (h : Z)
    (str : list byte) (len : Z) : option (Z * slot) :=
  match fuel with
  | O => None
  | S fuel' =>
      node ← load st ptree;
      if decide (node = NULL) then Some (node, ptree)
      else
        nd ← heap st !! node;
        match symtab_cmp h str len node nd with
        | inl found => Some (found, ptree)
        | inr ptree' => symtab_walk fuel' st ptree' h str len
        end
  end.

(** The tree holds at most one node per heap entry, so a walk that comes
    back does so within that many visits (plus the final empty slot). *)
Definition symtab_lookup (st : state) (ptree : slot) (str : list byte) (len : Z)
  : option (Z * slot) :=
  symtab_walk (S (size (heap st))) st ptree (hash_symbol str len) (bytes_of str len) len.

(** The critical section of [_jl_symbol], entered with the slot the
    unlocked lookup ended in. *)
Definition _jl_symbol_locked (st : state) (slot0 : slot) (str : list byte) (len : Z)
  : res Z :=
  let st := uv_mutex_lock st in
  match load st slot0 with
  | None => Stuck
  | Some cur =>
      (* Someone might have updated it, check and look up again *)
      let again :=
        if decide (cur = NULL) then Some (NULL, slot0)
        else symtab_lookup st slot0 str len in
      match again with
      | None => Stuck
      | Some (node, slot1) =>
          if decide (cur <> NULL /\ node <> NULL) then Ret node (uv_mutex_unlock st)
          else
            let '(node, st1) := mk_symbol str len st in
            let st2 := store slot1 node st1 in
            Ret node (uv_mutex_unlock st2)
      end
  end.

(** [assert(!memchr(str, 0, len))] is the caller's contract; the
    properties below take it as a hypothesis. *)
Definition _jl_symbol (st : state) (str : list byte) (len : Z) : res Z :=
  if len >? MAX_SYM_LEN then Throw NameTooLong st
  else
    match symtab_lookup st SlotRoot str len with
    | None => Stuck
    | Some (node, slot0) =>
        if decide (node = NULL) then _jl_symbol_locked st slot0 str len
        else Ret node st
    end.

Definition jl_symbol (st : state) (str : list byte) : res Z :=
  _jl_symbol st str (strlen str).

Definition jl_symbol_lookup (st : state) (str : list byte) : res Z :=
  match symtab_lookup st SlotRoot str (strlen str) with
  | None => Stuck
  | Some (node, _) => Ret node st
  end.

Definition jl_symbol_n (st : state) (str : list byte) (len : Z) : res Z :=
  if memchr0 (bytes_of str len) then Throw EmbeddedNul st
  else _jl_symbol st str len.

Definition jl_get_root_symbol (st : state) : Z := symtab st.

Definition jl_get_gs_ctr (st : state) : Z := gs_ctr st.

Definition jl_set_gs_ctr (ctr : Z) (st : state) : state :=
  {| heap := heap st; perm_next := perm_next st; symtab := symtab st;
     gs_ctr := to_uint32_t ctr; trace := trace st |}.

(** [jl_atomic_fetch_add_relaxed(&gs_ctr, 1)]. *)
Definition fetch_add_gs_ctr (st : state) : Z * state :=
  (gs_ctr st, jl_set_gs_ctr (gs_ctr st + 1) st).

Definition hash_sign : byte := x23.

Definition jl_gensym (st : state) : res Z :=
  let '(ctr, st1) := fetch_add_gs_ctr st in
  let n := uint2str (16 - 2) ctr 10 in
  let n := hash_sign :: hash_sign :: n in
  jl_symbol st1 n.

(** [jl_tagged_gensym] from the declaration of [gs_name] on, once [len]
    is settled.  The scratch buffer [name] (on the stack, or from
    [malloc_s] and freed for a tag of 256 bytes or more) is the list
    [name]. *)
Definition jl_tagged_gensym_name (st : state) (str : list byte) (len : Z) : res Z :=
  let sizeof_gs_name := 14 in
  let alloc_len := to_size_t (sizeof_gs_name + len + 3) in
  if (len >? MAX_SYM_LEN) || (alloc_len >? MAX_SYM_LEN) then Throw NameTooLong st
  else
    let '(ctr, st1) := fetch_add_gs_ctr st in
    let digits := uint2str sizeof_gs_name ctr 10 in
    (* n - gs_name *)
    let n_off := sizeof_gs_name - 1 - Z.of_nat (length digits) in
    let name :=
      hash_sign :: hash_sign :: bytes_of str len ++ hash_sign :: digits ++ [x00] in
    _jl_symbol st1 name (to_size_t (alloc_len - n_off - 1)).

Definition jl_tagged_gensym (st : state) (str : list byte) (len : Z) : res Z :=
  if len =? SIZE_MAX then jl_tagged_gensym_name st str (strlen str)
  else if memchr0 (bytes_of str len) then Throw EmbeddedNul st
  else jl_tagged_gensym_name st str len.

(** ** Well-formed tables *)

(** [jl_symbol_name(sym)], for a handle of the permanent heap. *)
Definition jl_symbol_name (st : state) (sym : Z) : option (list byte) :=
  sym_name <$> heap st !! sym.

(** The caller's side of the C interface: [str] points to at least [len]
    readable bytes. *)
Definition valid_buf (str : list byte) (len : Z) : Prop :=
  0 <= len <= Z.of_nat (length str).

(** What [mk_symbol] establishes for a node and nothing changes later. *)
Definition node_ok (nd : jl_sym_t) : Prop :=
  memchr0 (sym_name nd) = false /\
  sym_hash nd = hash_symbol (sym_name nd) (Z.of_nat (length (sym_name nd))).

(** The invariant of the registry.  Every node of the permanent heap is the
    one the lookup of its own name ends in, and every lookup comes back. *)
Record wf (st : state) : Prop := {
  wf_perm : 0 < perm_next st;
  wf_dom : forall a nd, heap st !! a = Some nd -> 0 < a < perm_next st;
  wf_node : forall a nd, heap st !! a = Some nd -> node_ok nd;
  wf_find : forall a nd, heap st !! a = Some nd ->
    exists sl, symtab_lookup st SlotRoot
                 (sym_name nd) (Z.of_nat (length (sym_name nd))) = Some (a, sl);
  wf_walk : forall h s len,
    is_Some (symtab_walk (S (size (heap st))) st SlotRoot h s len);
  wf_ctr : 0 <= gs_ctr st < 2 ^ 32
}.

(** [st'] still holds every symbol of [st], under the same handle. *)
Definition extends (st st' : state) : Prop :=
  forall a nd, heap st !! a = Some nd ->
    exists nd', heap st' !! a = Some nd' /\
      sym_name nd' = sym_name nd /\ sym_hash nd' = sym_hash nd.

(** A later state of a well-formed registry. *)
Definition later (st st' : state) : Prop := wf st' /\ extends st st'.

(** The states the registry goes through, with the names interned so far.
    Every entry point that changes the state does so through [_jl_symbol]
    or through the counter. *)
Inductive reachable : list (list byte) -> state -> Prop :=
  | reach_init : reachable [] init_state
  | reach_intern log st str len sym st' :
      reachable log st ->
      valid_buf str len ->
      memchr0 (bytes_of str len) = false ->
      _jl_symbol st str len = Ret sym st' ->
      reachable (bytes_of str len :: log) st'
  | reach_ctr log st ctr :
      reachable log st ->
      reachable log (jl_set_gs_ctr ctr st).

(** The states the registry goes through from [st] on: any number of
    [_jl_symbol] calls (the interning entry points and, after their step
    of the counter, both gensym functions end in one) and of counter
    updates. *)
Inductive runs : state -> state -> Prop :=
  | runs_refl st : runs st st
  | runs_intern st st1 str len sym st2 :
      runs st st1 ->
      valid_buf str len ->
      memchr0 (bytes_of str len) = false ->
      _jl_symbol st1 str len = Ret sym st2 ->
      runs st st2
  | runs_ctr st st1 ctr :
      runs st st1 ->
      runs st (jl_set_gs_ctr ctr st1).

(** The name [jl_gensym] builds for a counter value. *)
Definition gensym_name (ctr : Z) : list byte :=
  hash_sign :: hash_sign :: uint2str 14 ctr 10.

(** The name [jl_tagged_gensym] builds for a tag and a counter value. *)
Definition tagged_name (tag : list byte) (ctr : Z) : list byte :=
  hash_sign :: hash_sign :: tag ++ hash_sign :: uint2str 14 ctr 10.

(** [jl_gensym] called [n] times in a row: the names of the symbols
    returned, in call order. *)
Fixpoint gensym_names (n : nat) (st : state) : list (option (list byte)) :=
  match n with
  | O => []
  | S n' =>
      match jl_gensym st with
      | Ret sym st' => jl_symbol_name st' sym :: gensym_names n' st'
      | _ => []
      end
  end.

End Symbol.

(** [st'] is [st] with a fresh node [p], carrying the hash and name of
    [nd], published in the empty slot [sl]; nothing else a lookup reads has
    changed. *)
Definition attached (st st' : state) (sl : slot) (p : Z) (nd : jl_sym_t) : Prop :=
  heap st !! p = None /\ p <> NULL /\ load st sl = Some NULL /\
  (exists nd', heap st' !! p = Some nd' /\
     sym_hash nd' = sym_hash nd /\ sym_name nd' = sym_name nd /\
     sym_left nd' = NULL /\ sym_right nd' = NULL) /\
  load st' sl = Some p /\
  (forall sl' v, sl' <> sl -> load st sl' = Some v -> load st' sl' = Some v) /\
  (forall a nd0, heap st !! a = Some nd0 ->
     exists nd', heap st' !! a = Some nd' /\
       sym_hash nd' = sym_hash nd0 /\ sym_name nd' = sym_name nd0) /\
  (forall a nd', heap st' !! a = Some nd' -> a = p \/ is_Some (heap st !! a)) /\
  size (heap st') = S (size (heap st)).

(** Where a lookup that ended in the empty slot [sl] ends once [p] hangs
    there. *)
Definition after_attach (h : Z) (s : list byte) (len : Z) (sl : slot) (p : Z)
    (nd : jl_sym_t) (r : Z * slot) : Z * slot :=
  if decide (r = (NULL, sl)) then
    match symtab_cmp h s len p nd with
    | inl _ => (p, sl)
    | inr sl' => (NULL, sl')
    end
  else r.

(** [st'] is [st] after other callers have published nodes: what happens
    to the table between the unlocked lookup of [_jl_symbol] and its
    critical section when several threads intern. *)
Inductive grows : state -> state -> Prop :=
  | grows_same st st' :
      heap st' = heap st -> symtab st' = symtab st -> grows st st'
  | grows_attach st st1 st' sl p nd :
      grows st st1 -> attached st1 st' sl p nd -> grows st st'.

(** ** An instance to run the definitions on *)

(** The layout of julia.h on LP64 (a symbol header of three words, a tag of
    one word) with stand-ins for the two hash functions. *)
Definition demo_memhash (s : list byte) : Z :=
  fold_left (fun h b => (h * 0x9E3779B97F4A7C15 + byte_val b + 1) mod 2 ^ 64) s 0x1234.

Definition demo_inthash (z : Z) : Z := (z * 0xFF51AFD7ED558CCD) mod 2 ^ 64.

Definition demo_runtime : Runtime.
Proof.
  refine {| sizeof_jl_sym_t := 24; sizeof_jl_taggedvalue_t := 8;
            memhash := demo_memhash; inthash := demo_inthash |}.
  lia.
Defined.

Definition bytes (s : string) : list byte := String.list_byte_of_string s.

(** The number a string of decimal digits denotes. *)
Definition decimal_value (s : list byte) : Z :=
  fold_left (fun v b => 10 * v + (byte_val b - 48)) s 0.

(** The registry after "hello" has been interned. *)
Definition demo_state : state :=
  match @_jl_symbol demo_runtime init_state (bytes "hello") 5 with
  | Ret _ st => st
  | _ => init_state
  end.

(** The registry after "hello" and then "world" have been interned. *)
Definition demo_state2 : state :=
  match @_jl_symbol demo_runtime demo_state (bytes "world") 5 with
  | Ret _ st => st
  | _ => demo_state
  end.

(** A name of [n] bytes, for the cases at the length limit. *)
Definition long_name (n : Z) : list byte := replicate (Z.to_nat n) "a"%byte.

(** ** What tooling sees from the root *)


(** A pointer is NULL or a symbol of the permanent heap. *)
Definition points_in (st : state) (p : Z) : Prop :=
  p = NULL \/ is_Some (heap st !! p).

Global Instance byte_eq_dec : EqDecision byte := Byte.byte_eq_dec.

(** [jl_gensym] called [n] times in a row: the handles returned, in call
    order, and the state reached. *)
Fixpoint gensym_run {R : Runtime} (n : nat) (st : state) : list Z * state :=
  match n with
  | O => ([], st)
  | S n' =>
      match jl_gensym st with
      | Ret sym st' => let '(hs, st'') := gensym_run n' st' in (sym :: hs, st'')
      | _ => ([], st)
      end
  end.

(** The registry after [jl_tagged_gensym("foo", 3)] on the empty table. *)
Definition demo_tagged_state : state :=
  match @jl_tagged_gensym demo_runtime init_state (bytes "foo") 3 with
  | Ret _ st => st
  | _ => init_state
  end.

(** * Properties *)

(** ** Bytes and strings *)

Lemma byte_eqb_eq (a b : byte) : Byte.eqb a b = true <-> a = b.
Proof.
  split; [apply Byte.byte_dec_bl | apply Byte.byte_dec_lb].
Qed.

Lemma byte_eqb_refl (a : byte) : Byte.eqb a a = true.
Proof. now apply byte_eqb_eq. Qed.

Lemma byte_val_inj (a b : byte) : byte_val a = byte_val b -> a = b.
Proof.
  unfold byte_val. intros H. apply N2Z.inj in H.
  assert (Some a = Some b) as E by (rewrite <- (Byte.of_to_N a), <- (Byte.of_to_N b); now f_equal).
  now injection E.
Qed.

Lemma is_nul_true (c : byte) : is_nul c = true <-> c = x00.
Proof. apply byte_eqb_eq. Qed.

Lemma is_nul_false (c : byte) : is_nul c = false <-> c <> x00.
Proof.
  rewrite <- is_nul_true. destruct (is_nul c); split; congruence.
Qed.

Lemma memchr0_cons (c : byte) (s : list byte) :
  memchr0 (c :: s) = false <-> c <> x00 /\ memchr0 s = false.
Proof.
  unfold memchr0. simpl. rewrite orb_false_iff, is_nul_false. tauto.
Qed.

Lemma memchr0_app (s t : list byte) :
  memchr0 (s ++ t) = memchr0 s || memchr0 t.
Proof. unfold memchr0. apply existsb_app. Qed.

Lemma memchr0_take (s : list byte) (n : nat) :
  memchr0 s = false -> memchr0 (take n s) = false.
Proof.
  revert n. induction s as [|c s IH]; intros [|n]; try easy.
  change (take (S n) (c :: s)) with (c :: take n s).
  rewrite !memchr0_cons. intros [Hc Hs]. auto.
Qed.

Lemma memchr0_replicate (n : nat) (c : byte) :
  c <> x00 -> memchr0 (replicate n c) = false.
Proof.
  intros Hc. induction n as [|n IH]; [easy|].
  change (replicate (S n) c) with (c :: replicate n c). now apply memchr0_cons.
Qed.

Lemma strncmp_refl (s : list byte) (n : nat) : strncmp s s n = 0.
Proof.
  revert s. induction n as [|n IH]; intros s; simpl; [easy|].
  rewrite byte_eqb_refl. simpl. destruct (is_nul (char_at s 0)); [easy|]. apply IH.
Qed.

(** On names without a terminator inside, [strncmp] over the probe's length
    together with the terminator check decides equality. *)
Lemma strncmp_eq (s t : list byte) :
  memchr0 s = false -> memchr0 t = false ->
  strncmp s t (length s) = 0 -> char_at t (length s) = x00 -> s = t.
Proof.
  revert t. induction s as [|c s IH]; intros t Hs Ht Hcmp Hend.
  - destruct t as [|d t]; [easy|]. apply memchr0_cons in Ht. simpl in Hend. tauto.
  - apply memchr0_cons in Hs as [Hc Hs]. simpl in Hcmp.
    destruct t as [|d t]; unfold char_at in Hcmp; simpl in Hcmp.
    + destruct (Byte.eqb c x00) eqn:E; simpl in Hcmp.
      * apply byte_eqb_eq in E. contradiction.
      * exfalso. apply Hc, byte_val_inj. change (byte_val x00) with 0 in *. lia.
    + apply memchr0_cons in Ht as [Hd Ht].
      destruct (Byte.eqb c d) eqn:E; simpl in Hcmp.
      * apply byte_eqb_eq in E. subst d.
        apply is_nul_false in Hc. rewrite Hc in Hcmp.
        f_equal. apply IH; auto.
      * exfalso. assert (c = d) by (apply byte_val_inj; lia). subst.
        rewrite byte_eqb_refl in E. discriminate.
Qed.

Lemma strlen_nonneg (s : list byte) : 0 <= strlen s.
Proof. induction s as [|c s IH]; simpl; [lia|]. destruct (is_nul c); lia. Qed.

Lemma strlen_le (s : list byte) : strlen s <= Z.of_nat (length s).
Proof.
  induction s as [|c s IH]; simpl; [lia|]. destruct (is_nul c); lia.
Qed.

Lemma strlen_no_nul (s : list byte) : memchr0 (bytes_of s (strlen s)) = false.
Proof.
  unfold bytes_of. induction s as [|c s IH]; simpl; [easy|].
  destruct (is_nul c) eqn:E; [easy|].
  pose proof (strlen_nonneg s).
  replace (Z.to_nat (1 + strlen s)) with (S (Z.to_nat (strlen s))) by lia.
  simpl. apply memchr0_cons. split; [now apply is_nul_false | exact IH].
Qed.

Lemma strlen_full (s : list byte) :
  memchr0 s = false -> strlen s = Z.of_nat (length s).
Proof.
  induction s as [|c s IH]; [easy|].
  rewrite memchr0_cons, <- is_nul_false. intros [Hc Hs]. simpl. rewrite Hc, IH; auto. lia.
Qed.

Lemma strlen_valid (s : list byte) : valid_buf s (strlen s).
Proof. split; [apply strlen_nonneg | apply strlen_le]. Qed.

Lemma bytes_of_length (str : list byte) (len : Z) :
  valid_buf str len -> Z.of_nat (length (bytes_of str len)) = len.
Proof.
  intros [H0 H1]. unfold bytes_of. rewrite length_take. lia.
Qed.

Lemma bytes_of_idem (str : list byte) (len : Z) :
  bytes_of (bytes_of str len) len = bytes_of str len.
Proof.
  unfold bytes_of. rewrite take_take. f_equal. lia.
Qed.

Lemma bytes_of_all (s : list byte) : bytes_of s (Z.of_nat (length s)) = s.
Proof. unfold bytes_of. rewrite Nat2Z.id. apply take_ge. lia. Qed.

(** ** Machine integers *)

Lemma to_size_t_range (z : Z) : 0 <= to_size_t z < 2 ^ 64.
Proof. unfold to_size_t. apply Z.mod_pos_bound. lia. Qed.

Lemma to_size_t_small (z : Z) : 0 <= z < 2 ^ 64 -> to_size_t z = z.
Proof. unfold to_size_t. apply Z.mod_small. Qed.

Lemma to_intptr_t_zero (a b : Z) :
  0 <= a < 2 ^ 64 -> 0 <= b < 2 ^ 64 -> (to_intptr_t (a - b) = 0 <-> a = b).
Proof.
  intros Ha Hb. unfold to_intptr_t.
  destruct (Z_lt_le_dec a b) as [Hlt|Hge].
  - replace ((a - b) mod 2 ^ 64) with (a - b + 2 ^ 64)
      by (apply Z.mod_unique with (q := -1); lia).
    destruct (a - b + 2 ^ 64 <? 2 ^ 63) eqn:E; lia.
  - rewrite Z.mod_small by lia.
    destruct (a - b <? 2 ^ 63) eqn:E; lia.
Qed.

Lemma to_intptr_t_self (a : Z) : to_intptr_t (a - a) = 0.
Proof. now rewrite Z.sub_diag. Qed.

(** The sign of the wrapped difference is the order of the two values as
    long as they are less than [2 ^ 63] apart. *)
Lemma to_intptr_t_neg (a b : Z) :
  0 <= a < 2 ^ 64 -> 0 <= b < 2 ^ 64 -> Z.abs (a - b) < 2 ^ 63 ->
  (to_intptr_t (a - b) < 0 <-> a < b).
Proof.
  intros Ha Hb Hd. unfold to_intptr_t.
  destruct (Z_lt_le_dec a b) as [Hlt|Hge].
  - replace ((a - b) mod 2 ^ 64) with (a - b + 2 ^ 64)
      by (apply Z.mod_unique with (q := -1); lia).
    destruct (a - b + 2 ^ 64 <? 2 ^ 63) eqn:E; lia.
  - rewrite Z.mod_small by lia.
    destruct (a - b <? 2 ^ 63) eqn:E; lia.
Qed.

Lemma land_neg8 (x : Z) : Z.land x (-8) = 8 * (x / 8).
Proof.
  change (-8) with (Z.lnot (Z.ones 3)).
  rewrite <- Z.ldiff_land, Z.ldiff_ones_r by lia.
  rewrite Z.shiftl_mul_pow2, Z.shiftr_div_pow2 by lia.
  change (2 ^ 3) with 8. lia.
Qed.

Lemma land_size_t_neg8 (x : Z) :
  0 <= x < 2 ^ 64 -> Z.land x (to_size_t (-8)) = 8 * (x / 8).
Proof.
  intros Hx. unfold to_size_t.
  rewrite <- (Z.land_ones (-8) 64) by lia.
  rewrite (Z.land_comm (-8)), Z.land_assoc, Z.land_ones by lia.
  rewrite Z.mod_small by exact Hx. apply land_neg8.
Qed.

Section SymbolFacts.
Context {R : Runtime}.

Lemma MAX_SYM_LEN_eq :
  MAX_SYM_LEN = INTPTR_MAX - sizeof_jl_taggedvalue_t - sizeof_jl_sym_t - 1.
Proof.
  unfold MAX_SYM_LEN. pose proof runtime_layout as (H1 & H2).
  apply to_size_t_small. unfold INTPTR_MAX in *. lia.
Qed.

Lemma MAX_SYM_LEN_range : 2 ^ 62 <= MAX_SYM_LEN < 2 ^ 63.
Proof.
  rewrite MAX_SYM_LEN_eq. pose proof runtime_layout as (H1 & H2).
  unfold INTPTR_MAX in *. lia.
Qed.

(** [symbol_nbytes] rounds the header, the name and its terminator up to a
    multiple of 8. *)
Lemma symbol_nbytes_eq (len : Z) :
  0 <= len <= MAX_SYM_LEN ->
  symbol_nbytes len = 8 * ((sizeof_jl_sym_t + len + 1 + 7) / 8).
Proof.
  intros Hlen. unfold symbol_nbytes.
  rewrite MAX_SYM_LEN_eq in Hlen. pose proof runtime_layout as (H1 & H2).
  unfold INTPTR_MAX in *.
  rewrite (to_size_t_small (_ + 7)) by lia.
  apply land_size_t_neg8. lia.
Qed.

Lemma symbol_nbytes_pos (len : Z) :
  0 <= len <= MAX_SYM_LEN -> 0 < symbol_nbytes len.
Proof.
  intros Hlen. rewrite symbol_nbytes_eq by exact Hlen.
  pose proof runtime_layout as (H1 & H2).
  assert (1 <= (sizeof_jl_sym_t + len + 1 + 7) / 8); [|lia].
  apply Z.div_le_lower_bound; lia.
Qed.

End SymbolFacts.

(** ** The lookup loop *)

Lemma symtab_cmp_inl h s len node nd found :
  symtab_cmp h s len node nd = inl found ->
  found = node /\ to_intptr_t (h - sym_hash nd) = 0 /\
  strncmp s (sym_name nd) (Z.to_nat len) = 0 /\
  char_at (sym_name nd) (Z.to_nat len) = x00.
Proof.
  unfold symtab_cmp.
  destruct (to_intptr_t (h - sym_hash nd) =? 0) eqn:Ex.
  - destruct (strncmp s (sym_name nd) (Z.to_nat len) =? 0) eqn:Ec; simpl.
    + destruct (is_nul (char_at (sym_name nd) (Z.to_nat len))) eqn:En.
      * intros [= <-]. apply is_nul_true in En. repeat split; auto; lia.
      * discriminate.
    + discriminate.
  - discriminate.
Qed.

Lemma symtab_cmp_inr h s len node nd sl :
  symtab_cmp h s len node nd = inr sl -> sl = SlotLeft node \/ sl = SlotRight node.
Proof.
  unfold symtab_cmp. intros H.
  repeat match type of H with
         | context [if ?b then _ else _] => destruct b
         end; inversion H; auto.
Qed.

Lemma symtab_cmp_ext h s len node nd nd' :
  sym_hash nd' = sym_hash nd -> sym_name nd' = sym_name nd ->
  symtab_cmp h s len node nd' = symtab_cmp h s len node nd.
Proof. unfold symtab_cmp. now intros -> ->. Qed.

(** A node is the match of its own hash and name. *)
Lemma symtab_cmp_self node nd :
  symtab_cmp (sym_hash nd) (sym_name nd) (Z.of_nat (length (sym_name nd))) node nd
  = inl node.
Proof.
  unfold symtab_cmp. rewrite to_intptr_t_self, Nat2Z.id, strncmp_refl. simpl.
  unfold char_at. rewrite nth_overflow by lia. reflexivity.
Qed.

Lemma symtab_walk_S fuel st ptree h s len r :
  symtab_walk fuel st ptree h s len = Some r ->
  symtab_walk (S fuel) st ptree h s len = Some r.
Proof.
  revert ptree. induction fuel as [|fuel IH]; intros ptree; [discriminate|].
  intros H. simpl in H. change (symtab_walk (S (S fuel)) st ptree h s len) with
    (node ← load st ptree;
     if decide (node = NULL) then Some (node, ptree)
     else nd ← heap st !! node;
          match symtab_cmp h s len node nd with
          | inl found => Some (found, ptree)
          | inr ptree' => symtab_walk (S fuel) st ptree' h s len
          end).
  destruct (load st ptree) as [node|]; simpl in *; [|discriminate].
  destruct (decide (node = NULL)); [exact H|].
  destruct (heap st !! node) as [nd|]; simpl in *; [|discriminate].
  destruct (symtab_cmp h s len node nd); [exact H|]. now apply IH.
Qed.

Lemma symtab_walk_le fuel fuel' st ptree h s len r :
  (fuel <= fuel')%nat ->
  symtab_walk fuel st ptree h s len = Some r ->
  symtab_walk fuel' st ptree h s len = Some r.
Proof.
  induction 1 as [|fuel' _ IH]; [easy|]. intros H. now apply symtab_walk_S, IH.
Qed.

(** What a lookup returns: the content of the slot it ends in, which is
    either empty or a node matching the probe. *)
Lemma symtab_walk_result fuel st ptree h s len node sl :
  symtab_walk fuel st ptree h s len = Some (node, sl) ->
  load st sl = Some node /\
  (node <> NULL -> exists nd, heap st !! node = Some nd /\
                    symtab_cmp h s len node nd = inl node).
Proof.
  revert ptree. induction fuel as [|fuel IH]; intros ptree; [discriminate|].
  simpl. destruct (load st ptree) as [n|] eqn:Hl; simpl; [|discriminate].
  destruct (decide (n = NULL)) as [->|Hn].
  - intros [= <- <-]. split; [exact Hl | congruence].
  - destruct (heap st !! n) as [nd|] eqn:Hnd; simpl; [|discriminate].
    destruct (symtab_cmp h s len n nd) as [found|sl'] eqn:Hc.
    + intros [= <- <-]. apply symtab_cmp_inl in Hc as Hc'. destruct Hc' as [-> _].
      split; [exact Hl|]. intros _. eauto.
    + apply IH.
Qed.

(** The loop reads the heap and the root, nothing else. *)
Lemma symtab_walk_ext fuel st st' ptree h s len :
  heap st = heap st' -> symtab st = symtab st' ->
  symtab_walk fuel st ptree h s len = symtab_walk fuel st' ptree h s len.
Proof.
  intros Hh Hs. revert ptree. induction fuel as [|fuel IH]; intros ptree; [easy|].
  simpl. assert (load st ptree = load st' ptree) as ->
    by (destruct ptree; simpl; congruence).
  destruct (load st' ptree) as [n|]; simpl; [|easy].
  destruct (decide (n = NULL)); [easy|]. rewrite Hh.
  destruct (heap st' !! n) as [nd|]; simpl; [|easy].
  destruct (symtab_cmp h s len n nd); [easy|]. apply IH.
Qed.

(** Publishing a fresh node in the empty slot [sl] leaves every lookup on
    its path: it ends where it ended before, or, if it ended in [sl], at
    the new node or below it. *)
Lemma symtab_walk_attach st st' sl p nd h s len :
  attached st st' sl p nd ->
  forall fuel ptree r,
    symtab_walk fuel st ptree h s len = Some r ->
    symtab_walk (S fuel) st' ptree h s len = Some (after_attach h s len sl p nd r).
Proof.
  intros (Hfresh & Hp & Hsl & (nd' & Hnd' & Hh' & Hn' & Hl' & Hr') & Hsl' & Hload & Hold & _).
  induction fuel as [|fuel IH]; intros ptree r; [discriminate|].
  intros H. simpl in H.
  destruct (load st ptree) as [n|] eqn:Hl; simpl in H; [|discriminate].
  destruct (decide (n = NULL)) as [->|Hn].
  - injection H as <-. unfold after_attach.
    destruct (decide ((NULL, ptree) = (NULL, sl))) as [E|E].
    + injection E as ->. cbn [symtab_walk]. rewrite Hsl'. simpl.
      destruct (decide (p = NULL)); [contradiction|]. rewrite Hnd'. simpl.
      rewrite (symtab_cmp_ext h s len p nd nd') by assumption.
      destruct (symtab_cmp h s len p nd) as [found|sl'] eqn:Hc.
      * apply symtab_cmp_inl in Hc as [-> _]. reflexivity.
      * assert (load st' sl' = Some NULL) as ->.
        { apply symtab_cmp_inr in Hc as [-> | ->]; simpl; rewrite Hnd'; simpl; congruence. }
        simpl. destruct (decide (NULL = NULL)); [reflexivity | contradiction].
    + assert (ptree <> sl) by congruence.
      cbn [symtab_walk]. rewrite (Hload ptree NULL) by assumption. simpl.
      destruct (decide (NULL = NULL)); [reflexivity | contradiction].
  - assert (ptree <> sl) as Hne by (intros ->; congruence).
    change (symtab_walk (S (S fuel)) st' ptree h s len) with
      (node ← load st' ptree;
       if decide (node = NULL) then Some (node, ptree)
       else nd ← heap st' !! node;
            match symtab_cmp h s len node nd with
            | inl found => Some (found, ptree)
            | inr ptree' => symtab_walk (S fuel) st' ptree' h s len
            end).
    rewrite (Hload ptree n) by assumption. simpl.
    destruct (decide (n = NULL)); [contradiction|].
    destruct (heap st !! n) as [nd0|] eqn:Hnd0; simpl in H; [|discriminate].
    destruct (Hold n nd0 Hnd0) as (nd0' & -> & Hh0 & Hn0). simpl.
    rewrite (symtab_cmp_ext h s len n nd0 nd0') by assumption.
    destruct (symtab_cmp h s len n nd0) as [found|sl'] eqn:Hc.
    + injection H as <-. apply symtab_cmp_inl in Hc as [-> _].
      unfold after_attach. destruct (decide ((n, ptree) = (NULL, sl))); [congruence | reflexivity].
    + now apply IH.
Qed.

(** ** Publishing a node *)

Lemma size_alter (f : jl_sym_t -> jl_sym_t) (a : Z) (m : gmap Z jl_sym_t) :
  size (alter f a m) = size m.
Proof. rewrite <- !size_dom. f_equal. apply dom_alter_L. Qed.

Lemma load_Some_left st a v :
  load st (SlotLeft a) = Some v <-> exists nd, heap st !! a = Some nd /\ sym_left nd = v.
Proof.
  simpl. destruct (heap st !! a) as [nd|]; simpl; split.
  - intros [= <-]. eauto.
  - intros (nd' & [= <-] & <-). reflexivity.
  - discriminate.
  - intros (nd' & [=] & _).
Qed.

Lemma load_Some_right st a v :
  load st (SlotRight a) = Some v <-> exists nd, heap st !! a = Some nd /\ sym_right nd = v.
Proof.
  simpl. destruct (heap st !! a) as [nd|]; simpl; split.
  - intros [= <-]. eauto.
  - intros (nd' & [= <-] & <-). reflexivity.
  - discriminate.
  - intros (nd' & [=] & _).
Qed.

(** The state after [mk_symbol] and the store to the slot, in terms of the
    state before. *)
Lemma store_attached st st' sl p nd :
  heap st' = heap (store sl p (set_heap (<[p := nd]> (heap st)) st)) ->
  symtab st' = symtab (store sl p (set_heap (<[p := nd]> (heap st)) st)) ->
  heap st !! p = None -> p <> NULL -> load st sl = Some NULL ->
  sym_left nd = NULL -> sym_right nd = NULL ->
  attached st st' sl p nd.
Proof.
  intros Hheap Hroot Hfresh Hp Hsl Hl Hr.
  assert (forall a nd0, heap st !! a = Some nd0 -> a <> p) as Hne
    by (intros a nd0 Ha ->; congruence).
  destruct sl as [|a|a]; simpl in Hheap, Hroot.
  - (* the root *)
    repeat split; auto.
    + exists nd. rewrite Hheap, lookup_insert_eq. auto.
    + simpl. now rewrite Hroot.
    + intros [|b|b] v Hneq; [congruence | |]; simpl; rewrite Hheap.
      * intros H. destruct (heap st !! b) as [nb|] eqn:Hb; [|discriminate].
        rewrite lookup_insert_ne by (symmetry; eauto). now rewrite Hb.
      * intros H. destruct (heap st !! b) as [nb|] eqn:Hb; [|discriminate].
        rewrite lookup_insert_ne by (symmetry; eauto). now rewrite Hb.
    + intros b nb Hb. exists nb. rewrite Hheap, lookup_insert_ne by (symmetry; eauto). auto.
    + intros b nb. rewrite Hheap. destruct (decide (p = b)) as [->|Hpb]; [auto|].
      rewrite lookup_insert_ne by assumption. eauto.
    + rewrite Hheap. now apply map_size_insert_None.
  - (* a left child *)
    apply load_Some_left in Hsl as (na & Ha & Hla).
    assert (a <> p) as Hap by eauto.
    repeat split; auto.
    + apply load_Some_left. eauto.
    + exists nd. rewrite Hheap, lookup_alter_ne, lookup_insert_eq by assumption. auto.
    + apply load_Some_left. exists (set_left p na).
      rewrite Hheap, lookup_alter_eq, lookup_insert_ne, Ha by auto. auto.
    + intros [|b|b] v Hneq; simpl; rewrite ?Hheap.
      * now rewrite Hroot.
      * assert (a <> b) as Hab by congruence.
        intros H. destruct (heap st !! b) as [nb|] eqn:Hb; [|discriminate].
        rewrite lookup_alter_ne, lookup_insert_ne by (try assumption; symmetry; eauto).
        now rewrite Hb.
      * intros H. destruct (heap st !! b) as [nb|] eqn:Hb; [|discriminate].
        destruct (decide (a = b)) as [->|Hab].
        -- rewrite lookup_alter_eq, lookup_insert_ne, Hb by auto. exact H.
        -- rewrite lookup_alter_ne, lookup_insert_ne by (try assumption; symmetry; eauto).
           now rewrite Hb.
    + intros b nb Hb. destruct (decide (a = b)) as [->|Hab].
      * exists (set_left p nb).
        rewrite Hheap, lookup_alter_eq, lookup_insert_ne, Hb by auto. auto.
      * exists nb. rewrite Hheap, lookup_alter_ne, lookup_insert_ne
          by (try assumption; symmetry; eauto). auto.
    + intros b nb. rewrite Hheap. destruct (decide (p = b)) as [->|Hpb]; [auto|].
      intros H. right. destruct (decide (a = b)) as [->|Hab]; [eauto|].
      rewrite lookup_alter_ne, lookup_insert_ne in H by assumption. eauto.
    + rewrite Hheap, size_alter. now apply map_size_insert_None.
  - (* a right child *)
    apply load_Some_right in Hsl as (na & Ha & Hra).
    assert (a <> p) as Hap by eauto.
    repeat split; auto.
    + apply load_Some_right. eauto.
    + exists nd. rewrite Hheap, lookup_alter_ne, lookup_insert_eq by assumption. auto.
    + apply load_Some_right. exists (set_right p na).
      rewrite Hheap, lookup_alter_eq, lookup_insert_ne, Ha by auto. auto.
    + intros [|b|b] v Hneq; simpl; rewrite ?Hheap.
      * now rewrite Hroot.
      * intros H. destruct (heap st !! b) as [nb|] eqn:Hb; [|discriminate].
        destruct (decide (a = b)) as [->|Hab].
        -- rewrite lookup_alter_eq, lookup_insert_ne, Hb by auto. exact H.
        -- rewrite lookup_alter_ne, lookup_insert_ne by (try assumption; symmetry; eauto).
           now rewrite Hb.
      * assert (a <> b) as Hab by congruence.
        intros H. destruct (heap st !! b) as [nb|] eqn:Hb; [|discriminate].
        rewrite lookup_alter_ne, lookup_insert_ne by (try assumption; symmetry; eauto).
        now rewrite Hb.
    + intros b nb Hb. destruct (decide (a = b)) as [->|Hab].
      * exists (set_right p nb).
        rewrite Hheap, lookup_alter_eq, lookup_insert_ne, Hb by auto. auto.
      * exists nb. rewrite Hheap, lookup_alter_ne, lookup_insert_ne
          by (try assumption; symmetry; eauto). auto.
    + intros b nb. rewrite Hheap. destruct (decide (p = b)) as [->|Hpb]; [auto|].
      intros H. right. destruct (decide (a = b)) as [->|Hab]; [eauto|].
      rewrite lookup_alter_ne, lookup_insert_ne in H by assumption. eauto.
    + rewrite Hheap, size_alter. now apply map_size_insert_None.
Qed.

(** ** The invariant *)

Section Interning.
Context {R : Runtime}.

Lemma symtab_lookup_key st ptree str len :
  valid_buf str len ->
  symtab_lookup st ptree str len =
  symtab_lookup st ptree (bytes_of str len) (Z.of_nat (length (bytes_of str len))).
Proof.
  intros Hv. unfold symtab_lookup, hash_symbol.
  rewrite bytes_of_length by exact Hv. now rewrite !bytes_of_idem.
Qed.

Lemma symtab_lookup_name st ptree (n : list byte) :
  symtab_lookup st ptree n (Z.of_nat (length n)) =
  symtab_walk (S (size (heap st))) st ptree
    (hash_symbol n (Z.of_nat (length n))) n (Z.of_nat (length n)).
Proof. unfold symtab_lookup. now rewrite bytes_of_all. Qed.

Lemma hash_symbol_range str len : 0 <= hash_symbol str len < 2 ^ 64.
Proof. apply to_size_t_range. Qed.

Lemma wf_init : wf init_state.
Proof.
  split; unfold init_state; cbn [heap perm_next gs_ctr]; try lia.
  - intros a nd. now rewrite lookup_empty.
  - intros a nd. now rewrite lookup_empty.
  - intros a nd. now rewrite lookup_empty.
  - intros h s len. rewrite map_size_empty. simpl. eauto.
Qed.

(** One node per name. *)
Lemma wf_unique st a b n :
  wf st -> jl_symbol_name st a = Some n -> jl_symbol_name st b = Some n -> a = b.
Proof.
  intros Hwf Ha Hb. unfold jl_symbol_name in *.
  destruct (heap st !! a) as [na|] eqn:Ea; [|discriminate].
  destruct (heap st !! b) as [nb|] eqn:Eb; [|discriminate].
  simpl in *. injection Ha as Ha. injection Hb as Hb.
  destruct (wf_find st Hwf a na Ea) as [sa Hsa].
  destruct (wf_find st Hwf b nb Eb) as [sb Hsb].
  rewrite Ha in Hsa. rewrite Hb in Hsb. congruence.
Qed.

(** A lookup that returns a node returns the node of that name. *)
Lemma lookup_found st str len node sl :
  wf st -> valid_buf str len -> memchr0 (bytes_of str len) = false ->
  symtab_lookup st SlotRoot str len = Some (node, sl) -> node <> NULL ->
  jl_symbol_name st node = Some (bytes_of str len).
Proof.
  intros Hwf Hv Hnul Hl Hnode. unfold symtab_lookup in Hl.
  apply symtab_walk_result in Hl as [_ Hl]. destruct (Hl Hnode) as (nd & Hnd & Hc).
  apply symtab_cmp_inl in Hc as (_ & _ & Hcmp & Hend).
  unfold jl_symbol_name. rewrite Hnd. simpl. f_equal. symmetry.
  destruct (wf_node st Hwf node nd Hnd) as [Hn _].
  assert (Z.to_nat len = length (bytes_of str len)) as E
    by (pose proof (bytes_of_length str len Hv); lia).
  rewrite E in Hcmp, Hend. now apply strncmp_eq.
Qed.

(** A lookup finds the node of its name when there is one. *)
Lemma lookup_complete st str len a :
  wf st -> valid_buf str len ->
  jl_symbol_name st a = Some (bytes_of str len) ->
  exists sl, symtab_lookup st SlotRoot str len = Some (a, sl).
Proof.
  intros Hwf Hv Ha. unfold jl_symbol_name in Ha.
  destruct (heap st !! a) as [na|] eqn:Ea; [|discriminate].
  simpl in Ha. injection Ha as Ha.
  destruct (wf_find st Hwf a na Ea) as [sl Hsl].
  exists sl. rewrite symtab_lookup_key by exact Hv. now rewrite <- Ha.
Qed.

Lemma lookup_total st str len :
  wf st -> exists node sl, symtab_lookup st SlotRoot str len = Some (node, sl).
Proof.
  intros Hwf. unfold symtab_lookup.
  destruct (wf_walk st Hwf (hash_symbol str len) (bytes_of str len) len) as [[node sl] H].
  eauto.
Qed.

Lemma node_ok_ext nd nd' :
  sym_hash nd' = sym_hash nd -> sym_name nd' = sym_name nd -> node_ok nd -> node_ok nd'.
Proof. unfold node_ok. now intros -> ->. Qed.

(** Publishing the node of a name that the lookup did not find keeps the
    table well formed. *)
Lemma wf_attach st st' sl p nd :
  wf st -> attached st st' sl p nd -> node_ok nd ->
  symtab_lookup st SlotRoot (sym_name nd) (Z.of_nat (length (sym_name nd)))
    = Some (NULL, sl) ->
  perm_next st <= p < perm_next st' -> 0 <= gs_ctr st' < 2 ^ 32 ->
  wf st'.
Proof.
  intros Hwf Hatt Hok Hmiss Hperm Hctr.
  pose proof Hatt as
    (Hfresh & Hp & Hsl & (nd' & Hnd' & Hh' & Hn' & _) & _ & _ & Hold & Hdom & Hsize).
  pose proof (wf_perm st Hwf) as Hpos.
  assert (forall a nd1, heap st' !! a = Some nd1 ->
            (a = p /\ nd1 = nd') \/
            (a <> p /\ exists nd0, heap st !! a = Some nd0 /\
               sym_hash nd1 = sym_hash nd0 /\ sym_name nd1 = sym_name nd0)) as Hcase.
  { intros a nd1 Ha. destruct (decide (a = p)) as [->|Hap].
    - left. split; congruence.
    - right. split; [exact Hap|]. destruct (Hdom a nd1 Ha) as [->|[nd0 H0]]; [easy|].
      exists nd0. split; [exact H0|].
      destruct (Hold a nd0 H0) as (nd1' & H1 & ? & ?).
      assert (nd1' = nd1) by congruence. subst. auto. }
  split.
  - lia.
  - intros a nd1 Ha. destruct (Hcase a nd1 Ha) as [[-> _]|[_ (nd0 & H0 & _)]]; [lia|].
    pose proof (wf_dom st Hwf a nd0 H0). lia.
  - intros a nd1 Ha. destruct (Hcase a nd1 Ha) as [[_ ->]|[_ (nd0 & H0 & Hh0 & Hn0)]].
    + now apply (node_ok_ext nd).
    + apply (node_ok_ext nd0); auto. now apply (wf_node st Hwf a).
  - intros a nd1 Ha. rewrite symtab_lookup_name, Hsize.
    destruct (Hcase a nd1 Ha) as [[-> ->]|[_ (nd0 & H0 & Hh0 & Hn0)]].
    + exists sl. rewrite Hn'. rewrite symtab_lookup_name in Hmiss.
      rewrite (symtab_walk_attach st st' sl p nd _ _ _ Hatt _ _ _ Hmiss).
      unfold after_attach. destruct (decide ((NULL, sl) = (NULL, sl))); [|congruence].
      destruct Hok as [_ Hhash]. rewrite <- Hhash, symtab_cmp_self. reflexivity.
    + destruct (wf_find st Hwf a nd0 H0) as [sl0 Hf]. exists sl0.
      rewrite Hn0. rewrite symtab_lookup_name in Hf.
      rewrite (symtab_walk_attach st st' sl p nd _ _ _ Hatt _ _ _ Hf).
      unfold after_attach. pose proof (wf_dom st Hwf a nd0 H0).
      destruct (decide ((a, sl0) = (NULL, sl))) as [E|]; [|reflexivity].
      injection E as -> _. unfold NULL in *. lia.
  - intros h s len. rewrite Hsize.
    destruct (wf_walk st Hwf h s len) as [r Hr].
    rewrite (symtab_walk_attach st st' sl p nd _ _ _ Hatt _ _ _ Hr). eauto.
  - exact Hctr.
Qed.

End Interning.

(** ** Interning *)

Section InternSpec.
Context {R : Runtime}.

Lemma load_emit e st sl : load (emit e st) sl = load st sl.
Proof. now destruct sl. Qed.

Lemma extends_refl st : extends st st.
Proof. intros a nd H. eauto. Qed.

Lemma extends_trans st1 st2 st3 :
  extends st1 st2 -> extends st2 st3 -> extends st1 st3.
Proof.
  intros H12 H23 a nd H. destruct (H12 a nd H) as (nd2 & H2 & Hn2 & Hh2).
  destruct (H23 a nd2 H2) as (nd3 & H3 & Hn3 & Hh3).
  exists nd3. repeat split; congruence.
Qed.

Lemma later_refl st : wf st -> later st st.
Proof. intros H. split; [exact H | apply extends_refl]. Qed.

Lemma later_trans st1 st2 st3 : later st1 st2 -> later st2 st3 -> later st1 st3.
Proof.
  intros [_ H12] [Hwf H23]. split; [exact Hwf | now apply (extends_trans st1 st2)].
Qed.

(** Handles stay valid and keep their name. *)
Lemma later_name st st' a n :
  later st st' -> jl_symbol_name st a = Some n -> jl_symbol_name st' a = Some n.
Proof.
  intros [_ Hext]. unfold jl_symbol_name.
  destruct (heap st !! a) as [nd|] eqn:Ha; [|discriminate]. simpl. intros [= <-].
  destruct (Hext a nd Ha) as (nd' & H' & Hn & _). rewrite H'. simpl. now rewrite Hn.
Qed.

(** The critical section when the slot is still empty: allocate, fill in,
    publish. *)
Lemma _jl_symbol_locked_miss st sl str len :
  load st sl = Some NULL ->
  _jl_symbol_locked st sl str len =
  Ret (perm_next st)
    (uv_mutex_unlock
       (store sl (perm_next st) (snd (mk_symbol str len (uv_mutex_lock st))))).
Proof.
  intros Hl. unfold _jl_symbol_locked, uv_mutex_lock. rewrite load_emit, Hl.
  destruct (decide (NULL = NULL)); [|contradiction].
  destruct (decide (NULL <> NULL /\ NULL <> NULL)) as [[? _]|]; [contradiction|].
  reflexivity.
Qed.

Lemma hash_symbol_key str len :
  valid_buf str len ->
  hash_symbol (bytes_of str len) (Z.of_nat (length (bytes_of str len)))
  = hash_symbol str len.
Proof.
  intros Hv. unfold hash_symbol. rewrite bytes_of_length by exact Hv.
  now rewrite bytes_of_idem.
Qed.

(** The slow path: the name is not in the table and its lookup ends in the
    empty slot [sl]. *)
Lemma publish_spec st sl str len :
  wf st -> valid_buf str len -> memchr0 (bytes_of str len) = false ->
  len <= MAX_SYM_LEN ->
  symtab_lookup st SlotRoot str len = Some (NULL, sl) ->
  let p := perm_next st in
  let st' := uv_mutex_unlock (store sl p (snd (mk_symbol str len (uv_mutex_lock st)))) in
  later st st' /\ p <> NULL /\
  jl_symbol_name st' p = Some (bytes_of str len) /\
  gs_ctr st' = gs_ctr st /\
  (forall a n, jl_symbol_name st' a = Some n ->
     n = bytes_of str len \/ jl_symbol_name st a = Some n) /\
  trace st' = EvUnlock :: EvAlloc (symbol_nbytes len) :: EvLock :: trace st /\
  attached st st' sl p
    {| sym_left := NULL; sym_right := NULL;
       sym_hash := hash_symbol str len; sym_name := bytes_of str len |}.
Proof.
  intros Hwf Hv Hnul Hlen Hl p st'.
  pose proof Hl as Hres. unfold symtab_lookup in Hres.
  apply symtab_walk_result in Hres as [Hsl _].
  set (nd := {| sym_left := NULL; sym_right := NULL;
                sym_hash := hash_symbol str len; sym_name := bytes_of str len |}).
  pose proof (wf_perm st Hwf) as Hpos.
  assert (heap st !! p = None) as Hfresh.
  { destruct (heap st !! p) as [x|] eqn:Hx; [|reflexivity].
    pose proof (wf_dom st Hwf p x Hx). unfold p in *. lia. }
  assert (attached st st' sl p nd) as Hatt.
  { apply store_attached; auto; try (destruct sl; reflexivity).
    unfold p, NULL. lia. }
  assert (node_ok nd) as Hok.
  { split; simpl; [exact Hnul | symmetry; now apply hash_symbol_key]. }
  assert (wf st') as Hwf'.
  { apply (wf_attach st st' sl p nd); auto.
    - simpl. now rewrite <- symtab_lookup_key.
    - assert (perm_next st' = perm_next st + symbol_nbytes len) as ->
        by (destruct sl; reflexivity).
      pose proof (symbol_nbytes_pos len). unfold valid_buf in Hv. unfold p. lia.
    - assert (gs_ctr st' = gs_ctr st) as -> by (destruct sl; reflexivity).
      apply (wf_ctr st Hwf). }
  pose proof Hatt as
    (_ & Hp & _ & (nd' & Hnd' & _ & Hn' & _) & _ & _ & Hold & Hdom & _).
  split; [split; [exact Hwf'|]|].
  { intros a nd0 H0. destruct (Hold a nd0 H0) as (nd1 & ? & ? & ?). eauto. }
  split; [exact Hp|]. split; [|split; [|split; [|split]]].
  - unfold jl_symbol_name. rewrite Hnd'. simpl. now rewrite Hn'.
  - destruct sl; reflexivity.
  - intros a n Ha. unfold jl_symbol_name in *.
    destruct (heap st' !! a) as [nd1|] eqn:H1; [|discriminate].
    simpl in Ha. injection Ha as <-.
    destruct (Hdom a nd1 H1) as [->|[nd0 H0]].
    + left. assert (nd1 = nd') as -> by congruence. exact Hn'.
    + right. rewrite H0. simpl. f_equal.
      destruct (Hold a nd0 H0) as (nd1' & ? & ? & ?). congruence.
  - destruct sl; reflexivity.
  - exact Hatt.
Qed.

(** A name that is in the table is not missed. *)
Lemma lookup_miss st str len sl a :
  wf st -> valid_buf str len ->
  symtab_lookup st SlotRoot str len = Some (NULL, sl) ->
  jl_symbol_name st a <> Some (bytes_of str len).
Proof.
  intros Hwf Hv Hl Ha.
  destruct (lookup_complete st str len a Hwf Hv Ha) as [sl' Hl'].
  unfold jl_symbol_name in Ha.
  destruct (heap st !! a) as [x|] eqn:Hx; [|discriminate].
  pose proof (wf_dom st Hwf a x Hx). unfold NULL in *.
  assert (a = 0) by congruence. lia.
Qed.

(** What [_jl_symbol] does on a well-formed table, for a name within the
    caller contract. *)
Lemma _jl_symbol_spec st str len :
  wf st -> valid_buf str len -> memchr0 (bytes_of str len) = false ->
  len <= MAX_SYM_LEN ->
  exists sym st',
    _jl_symbol st str len = Ret sym st' /\ later st st' /\ sym <> NULL /\
    jl_symbol_name st' sym = Some (bytes_of str len) /\
    gs_ctr st' = gs_ctr st /\
    (forall a n, jl_symbol_name st' a = Some n ->
       n = bytes_of str len \/ jl_symbol_name st a = Some n) /\
    ((exists a, jl_symbol_name st a = Some (bytes_of str len)) -> st' = st) /\
    ((forall a, jl_symbol_name st a <> Some (bytes_of str len)) ->
       trace st' = EvUnlock :: EvAlloc (symbol_nbytes len) :: EvLock :: trace st).
Proof.
  intros Hwf Hv Hnul Hlen. unfold _jl_symbol.
  destruct (len >? MAX_SYM_LEN) eqn:E; [lia|]. clear E.
  destruct (lookup_total st str len Hwf) as (node & sl & Hl). rewrite Hl.
  destruct (decide (node = NULL)) as [->|Hnode].
  - (* not found: the slow path *)
    pose proof Hl as Hres. unfold symtab_lookup in Hres.
    apply symtab_walk_result in Hres as [Hsl _].
    rewrite _jl_symbol_locked_miss by exact Hsl.
    destruct (publish_spec st sl str len Hwf Hv Hnul Hlen Hl)
      as (Hlat & Hp & Hname & Hctr & Hnew & Htrace & _).
    eexists _, _. split; [reflexivity|].
    split; [exact Hlat|]. split; [exact Hp|]. split; [exact Hname|].
    split; [exact Hctr|]. split; [exact Hnew|]. split; [|auto].
    intros [a Ha]. exfalso. now apply (lookup_miss st str len sl a).
  - (* found *)
    pose proof (lookup_found st str len node sl Hwf Hv Hnul Hl Hnode) as Hname.
    exists node, st. split; [reflexivity|].
    split; [now apply later_refl|]. split; [exact Hnode|].
    split; [exact Hname|]. split; [reflexivity|]. split; [auto|]. split; [auto|].
    intros H. exfalso. now apply (H node).
Qed.

(** Interning only publishes nodes. *)
Lemma _jl_symbol_grows st str len sym st' :
  wf st -> valid_buf str len -> memchr0 (bytes_of str len) = false ->
  _jl_symbol st str len = Ret sym st' -> grows st st'.
Proof.
  intros Hwf Hv Hnul. unfold _jl_symbol.
  destruct (len >? MAX_SYM_LEN) eqn:E; [discriminate|].
  destruct (lookup_total st str len Hwf) as (node & sl & Hl). rewrite Hl.
  destruct (decide (node = NULL)) as [->|Hnode].
  - pose proof Hl as Hres. unfold symtab_lookup in Hres.
    apply symtab_walk_result in Hres as [Hsl _].
    rewrite _jl_symbol_locked_miss by exact Hsl. intros [= <- <-].
    destruct (publish_spec st sl str len Hwf Hv Hnul ltac:(lia) Hl)
      as (_ & _ & _ & _ & _ & _ & Hatt).
    eapply grows_attach; [|exact Hatt]. now apply grows_same.
  - intros [= <- <-]. now apply grows_same.
Qed.

End InternSpec.

(** ** Interning while the table grows *)

Section DoubleCheck.
Context {R : Runtime}.

Lemma load_ext st st' sl :
  heap st' = heap st -> symtab st' = symtab st -> load st' sl = load st sl.
Proof. intros Hh Hs. destruct sl; simpl; congruence. Qed.

Lemma wf_ext st st' :
  heap st' = heap st -> symtab st' = symtab st ->
  perm_next st' = perm_next st -> gs_ctr st' = gs_ctr st ->
  wf st -> wf st'.
Proof.
  intros Hh Hs Hp Hc Hwf. split.
  - rewrite Hp. apply (wf_perm st Hwf).
  - rewrite Hh, Hp. apply (wf_dom st Hwf).
  - rewrite Hh. apply (wf_node st Hwf).
  - rewrite Hh. intros a nd Ha. destruct (wf_find st Hwf a nd Ha) as [sl Hsl].
    exists sl. unfold symtab_lookup in *. rewrite Hh.
    now rewrite (symtab_walk_ext _ st' st).
  - intros h s len. rewrite Hh, (symtab_walk_ext _ st' st) by assumption.
    apply (wf_walk st Hwf).
  - rewrite Hc. apply (wf_ctr st Hwf).
Qed.

(** A lookup that ended in the empty slot [sl0] passes through [sl0] in
    every state the table grows into, and needs one more visit per node
    published. *)
Lemma grows_walk st st' h s len sl0 fuel :
  grows st st' ->
  symtab_walk fuel st SlotRoot h s len = Some (NULL, sl0) ->
  exists fuel' r,
    (fuel' + size (heap st) <= fuel + size (heap st'))%nat /\
    symtab_walk fuel' st' SlotRoot h s len = Some r /\
    symtab_walk fuel' st' sl0 h s len = Some r.
Proof.
  intros Hg Hw. induction Hg as [st st' Hh Hs | st st1 st' sl p nd Hg IH Hatt].
  - exists fuel, (NULL, sl0). split; [rewrite Hh; lia|]. split.
    + rewrite <- Hw. now apply symtab_walk_ext.
    + pose proof Hw as Hres. apply symtab_walk_result in Hres as [Hl _].
      destruct fuel as [|fuel]; [discriminate|].
      apply (symtab_walk_le 1); [lia|]. simpl.
      rewrite (load_ext st st') by assumption. rewrite Hl. simpl.
      destruct (decide (NULL = NULL)); [reflexivity | contradiction].
  - destruct (IH Hw) as (f1 & r & Hf & H1 & H2).
    exists (S f1), (after_attach h s len sl p nd r).
    pose proof Hatt as (_ & _ & _ & _ & _ & _ & _ & _ & Hsize).
    split; [lia|]. split; now apply (symtab_walk_attach st1 st').
Qed.

End DoubleCheck.

(** ** Errors, the counter and reachable states *)

Section Registry.
Context {R : Runtime}.

Lemma _jl_symbol_too_long st str len :
  MAX_SYM_LEN < len -> _jl_symbol st str len = Throw NameTooLong st.
Proof.
  intros H. unfold _jl_symbol. destruct (len >? MAX_SYM_LEN) eqn:E; [reflexivity | lia].
Qed.

Lemma _jl_symbol_locked_no_throw st sl str len e st' :
  _jl_symbol_locked st sl str len <> Throw e st'.
Proof.
  unfold _jl_symbol_locked.
  destruct (load (uv_mutex_lock st) sl) as [cur|]; [|discriminate].
  destruct (if decide (cur = NULL) then Some (NULL, sl)
            else symtab_lookup (uv_mutex_lock st) sl str len) as [[node sl1]|];
    [|discriminate].
  destruct (decide (cur <> NULL /\ node <> NULL)); discriminate.
Qed.

(** The only error [_jl_symbol] raises is the length check, which comes
    first and leaves the state as it was. *)
Lemma _jl_symbol_throw st str len e st' :
  _jl_symbol st str len = Throw e st' ->
  e = NameTooLong /\ st' = st /\ MAX_SYM_LEN < len.
Proof.
  unfold _jl_symbol. destruct (len >? MAX_SYM_LEN) eqn:E.
  - intros [= <- <-]. repeat split; lia.
  - destruct (symtab_lookup st SlotRoot str len) as [[node sl]|]; [|discriminate].
    destruct (decide (node = NULL)); [|discriminate].
    intros H. now apply _jl_symbol_locked_no_throw in H.
Qed.

Lemma _jl_symbol_Ret_len st str len sym st' :
  _jl_symbol st str len = Ret sym st' -> len <= MAX_SYM_LEN.
Proof.
  unfold _jl_symbol. destruct (len >? MAX_SYM_LEN) eqn:E; [discriminate | lia].
Qed.

Lemma jl_set_gs_ctr_wf ctr st : wf st -> wf (jl_set_gs_ctr ctr st).
Proof.
  intros Hwf. split.
  - apply (wf_perm st Hwf).
  - apply (wf_dom st Hwf).
  - apply (wf_node st Hwf).
  - intros a nd Ha. destruct (wf_find st Hwf a nd Ha) as [sl Hsl]. exists sl.
    unfold symtab_lookup in *. change (heap (jl_set_gs_ctr ctr st)) with (heap st).
    now rewrite <- (symtab_walk_ext _ st (jl_set_gs_ctr ctr st)).
  - intros h s len. change (heap (jl_set_gs_ctr ctr st)) with (heap st).
    rewrite <- (symtab_walk_ext _ st (jl_set_gs_ctr ctr st)) by reflexivity.
    apply (wf_walk st Hwf).
  - unfold to_uint32_t. apply Z.mod_pos_bound. lia.
Qed.

Lemma jl_set_gs_ctr_later ctr st : wf st -> later st (jl_set_gs_ctr ctr st).
Proof.
  intros Hwf. split; [now apply jl_set_gs_ctr_wf|]. intros a nd H. simpl. eauto.
Qed.

Lemma reachable_wf log st : reachable log st -> wf st.
Proof.
  induction 1 as [|log st str len sym st' _ IH Hv Hnul Hret|log st ctr _ IH].
  - apply wf_init.
  - pose proof (_jl_symbol_Ret_len _ _ _ _ _ Hret) as Hlen.
    destruct (_jl_symbol_spec st str len IH Hv Hnul Hlen) as (s & st1 & Hr & [Hwf _] & _).
    congruence.
  - now apply jl_set_gs_ctr_wf.
Qed.

(** Every name in the table was passed to [_jl_symbol]. *)
Lemma reachable_names log st a n :
  reachable log st -> jl_symbol_name st a = Some n -> n ∈ log.
Proof.
  intros Hreach. revert a n.
  induction Hreach as [|log st str len sym st' Hreach IH Hv Hnul Hret|log st ctr _ IH];
    intros a n Ha.
  - unfold jl_symbol_name, init_state in Ha. cbn [heap] in Ha.
    rewrite lookup_empty in Ha. discriminate.
  - pose proof (_jl_symbol_Ret_len _ _ _ _ _ Hret) as Hlen.
    destruct (_jl_symbol_spec st str len (reachable_wf _ _ Hreach) Hv Hnul Hlen)
      as (s & st1 & Hr & _ & _ & _ & _ & Hnew & _).
    assert (st1 = st') as -> by congruence.
    destruct (Hnew a n Ha) as [->|Hold].
    + apply list_elem_of_here.
    + apply list_elem_of_further. eauto.
  - eauto.
Qed.

End Registry.

(** * The specification's properties *)


Lemma demo_wf_init : @wf demo_runtime init_state.
Proof. apply wf_init. Qed.

Lemma demo_state_eq :
  @_jl_symbol demo_runtime init_state (bytes "hello") 5 = Ret 8 demo_state.
Proof. vm_compute. reflexivity. Qed.

Lemma demo_state_reachable : @reachable demo_runtime [bytes "hello"] demo_state.
Proof.
  apply (@reach_intern demo_runtime [] init_state (bytes "hello") 5 8 demo_state).
  - apply reach_init.
  - unfold valid_buf. simpl. lia.
  - reflexivity.
  - apply demo_state_eq.
Qed.


(** What the calls after [st] leave in place: the table stays well formed
    and every symbol keeps its handle, its name and its hash. *)
Lemma runs_later {R : Runtime} st st' : wf st -> runs st st' -> later st st'.
Proof.
  intros Hwf Hruns.
  induction Hruns as [st|st st1 str len sym st2 _ IH Hv Hnul Hret|st st1 ctr _ IH].
  - now apply later_refl.
  - specialize (IH Hwf). pose proof IH as [Hwf1 _].
    pose proof (_jl_symbol_Ret_len _ _ _ _ _ Hret) as Hlen.
    destruct (_jl_symbol_spec st1 str len Hwf1 Hv Hnul Hlen) as (s' & st2' & Hr & Hlat & _).
    assert (st2' = st2) as -> by congruence.
    exact (later_trans _ _ _ IH Hlat).
  - specialize (IH Hwf). pose proof IH as [Hwf1 _].
    exact (later_trans _ _ _ IH (jl_set_gs_ctr_later ctr st1 Hwf1)).
Qed.

(** C3.  In a state reached without interning the name, the lookup returns
    NULL (not found).  Interning the name (from any buffer that holds it,
    at a length within [MAX_SYM_LEN]) returns a handle that is not NULL,
    and the lookup of the name returns that handle in the state the call
    leaves and after any further calls that intern names, make gensyms or
    set the counter.  The lookup returns the registry exactly as it
    received it: no node, no allocation, no lock event. *)
Theorem lookup_before_after {R : Runtime} log st str :
  reachable log st ->
  (exists node, jl_symbol_lookup st str = Ret node st /\
     (bytes_of str (strlen str) ∉ log -> node = NULL)) /\
  (forall buf len,
     valid_buf buf len -> memchr0 (bytes_of buf len) = false ->
     bytes_of buf len = bytes_of str (strlen str) ->
     len <= MAX_SYM_LEN ->
     exists h st1,
       _jl_symbol st buf len = Ret h st1 /\ h <> NULL /\
       jl_symbol_lookup st1 str = Ret h st1 /\
       forall st2, runs st1 st2 -> jl_symbol_lookup st2 str = Ret h st2).
Proof.
  intros Hreach. pose proof (reachable_wf log st Hreach) as Hwf. split.
  - unfold jl_symbol_lookup.
    destruct (lookup_total st str (strlen str) Hwf) as (node & sl & Hl). rewrite Hl.
    exists node. split; [reflexivity|]. intros Hlog.
    destruct (decide (node = NULL)) as [|Hnode]; [assumption|]. exfalso. apply Hlog.
    apply (reachable_names log st node); [exact Hreach|].
    apply (lookup_found st str (strlen str) node sl); auto using strlen_valid, strlen_no_nul.
  - intros buf len Hv Hnul Hkey Hlen.
    destruct (_jl_symbol_spec st buf len Hwf Hv Hnul Hlen)
      as (h & st1 & Hr & Hlat1 & Hnz & Hname & _).
    exists h, st1. split; [exact Hr|]. split; [exact Hnz|].
    pose proof Hlat1 as [Hwf1 _]. rewrite Hkey in Hname.
    assert (forall st2, later st1 st2 -> jl_symbol_lookup st2 str = Ret h st2) as Hall.
    { intros st2 Hlat.
      pose proof (later_name st1 st2 h _ Hlat Hname) as Hname2.
      destruct Hlat as [Hwf2 _].
      destruct (lookup_complete st2 str (strlen str) h Hwf2 (strlen_valid str) Hname2)
        as [sl Hl].
      unfold jl_symbol_lookup. now rewrite Hl. }
    split.
    + apply Hall. now apply later_refl.
    + intros st2 Hruns. apply Hall. now apply runs_later.
Qed.

Lemma lookup_before_after_witness :
  (exists node,
     @jl_symbol_lookup demo_runtime demo_state (bytes "world") = Ret node demo_state /\
     (bytes_of (bytes "world") (strlen (bytes "world")) ∉ [bytes "hello"] -> node = NULL)) /\
  (forall buf len,
     valid_buf buf len -> memchr0 (bytes_of buf len) = false ->
     bytes_of buf len = bytes_of (bytes "world") (strlen (bytes "world")) ->
     len <= @MAX_SYM_LEN demo_runtime ->
     exists h st1,
       @_jl_symbol demo_runtime demo_state buf len = Ret h st1 /\ h <> NULL /\
       @jl_symbol_lookup demo_runtime st1 (bytes "world") = Ret h st1 /\
       forall st2, @runs demo_runtime st1 st2 ->
         @jl_symbol_lookup demo_runtime st2 (bytes "world") = Ret h st2).
Proof.
  apply (@lookup_before_after demo_runtime [bytes "hello"] demo_state (bytes "world")).
  apply demo_state_reachable.
Defined.

(** On the table holding "hello": "world" is not found, "hello" is found
    at its handle 8, and "world" is found at its handle 40 once interned. *)
Example lookup_run :
  @jl_symbol_lookup demo_runtime demo_state (bytes "world") = Ret NULL demo_state /\
  @jl_symbol_lookup demo_runtime demo_state (bytes "hello") = Ret 8 demo_state /\
  match @jl_symbol demo_runtime demo_state (bytes "world") with
  | Ret h st' =>
      match @jl_symbol_lookup demo_runtime st' (bytes "world") with
      | Ret h' _ => Some (h, h')
      | _ => None
      end
  | _ => None
  end = Some (40, 40).
Proof. repeat split; vm_compute; reflexivity. Qed.

(** C7.  [_jl_symbol] accepts a name of exactly [MAX_SYM_LEN] bytes, and
    with [MAX_SYM_LEN + 1] it raises NameTooLong, whatever the buffer and
    the state, returning the state it was given: nothing was allocated and
    the lock was not taken. *)
Theorem intern_length_boundary {R : Runtime} st str :
  wf st -> valid_buf str MAX_SYM_LEN -> memchr0 (bytes_of str MAX_SYM_LEN) = false ->
  (exists h st', _jl_symbol st str MAX_SYM_LEN = Ret h st' /\ h <> NULL /\
     jl_symbol_name st' h = Some (bytes_of str MAX_SYM_LEN)) /\
  (forall st0 buf, _jl_symbol st0 buf (MAX_SYM_LEN + 1) = Throw NameTooLong st0).
Proof.
  intros Hwf Hv Hnul. split.
  - destruct (_jl_symbol_spec st str MAX_SYM_LEN Hwf Hv Hnul (Z.le_refl _))
      as (h & st' & Hr & _ & Hnz & Hname & _).
    eauto.
  - intros st0 buf. apply _jl_symbol_too_long. lia.
Qed.

Lemma long_name_valid (n : Z) : 0 <= n -> valid_buf (long_name n) n.
Proof.
  intros Hn. unfold valid_buf, long_name. rewrite length_replicate. lia.
Qed.

Lemma long_name_no_nul (n len : Z) : memchr0 (bytes_of (long_name n) len) = false.
Proof.
  unfold bytes_of, long_name. apply memchr0_take, memchr0_replicate. discriminate.
Qed.

Lemma intern_length_boundary_witness :
  (exists h st',
     @_jl_symbol demo_runtime init_state
       (long_name (@MAX_SYM_LEN demo_runtime)) (@MAX_SYM_LEN demo_runtime) = Ret h st' /\
     h <> NULL /\
     @jl_symbol_name st' h
       = Some (bytes_of (long_name (@MAX_SYM_LEN demo_runtime)) (@MAX_SYM_LEN demo_runtime))) /\
  (forall st0 buf,
     @_jl_symbol demo_runtime st0 buf (@MAX_SYM_LEN demo_runtime + 1) = Throw NameTooLong st0).
Proof.
  apply (@intern_length_boundary demo_runtime init_state
           (long_name (@MAX_SYM_LEN demo_runtime))).
  - apply demo_wf_init.
  - apply long_name_valid. pose proof (@MAX_SYM_LEN_range demo_runtime). lia.
  - apply long_name_no_nul.
Defined.

(** C8.  [jl_symbol_n] raises EmbeddedNul exactly when a terminator occurs
    within the first [len] bytes, and then returns the state it was given;
    without one it is [_jl_symbol] on the same bytes, which returns a
    handle for a name within the maximum length. *)
Theorem symbol_n_embedded_nul {R : Runtime} st str len :
  ((exists st', jl_symbol_n st str len = Throw EmbeddedNul st')
     <-> memchr0 (bytes_of str len) = true) /\
  (memchr0 (bytes_of str len) = true ->
     jl_symbol_n st str len = Throw EmbeddedNul st) /\
  (memchr0 (bytes_of str len) = false ->
     jl_symbol_n st str len = _jl_symbol st str len) /\
  (wf st -> valid_buf str len -> len <= MAX_SYM_LEN ->
   memchr0 (bytes_of str len) = false ->
     exists h st', jl_symbol_n st str len = Ret h st' /\
                   _jl_symbol st str len = Ret h st' /\ h <> NULL /\
                   jl_symbol_name st' h = Some (bytes_of str len)).
Proof.
  unfold jl_symbol_n.
  destruct (memchr0 (bytes_of str len)) eqn:Hnul.
  - split; [|split; [|split]]; try easy. split; eauto.
  - split; [|split; [|split]]; try easy.
    + split; [|discriminate]. intros [st' H].
      apply _jl_symbol_throw in H as [H _]. discriminate.
    + intros Hwf Hv Hlen _.
      destruct (_jl_symbol_spec st str len Hwf Hv Hnul Hlen)
        as (h & st' & Hr & _ & Hnz & Hname & _).
      eauto 6.
Qed.

Lemma symbol_n_embedded_nul_witness :
  ((exists st', @jl_symbol_n demo_runtime init_state (bytes "ab" ++ x00 :: bytes "cd") 5
                = Throw EmbeddedNul st')
     <-> memchr0 (bytes_of (bytes "ab" ++ x00 :: bytes "cd") 5) = true) /\
  (memchr0 (bytes_of (bytes "ab" ++ x00 :: bytes "cd") 5) = true ->
     @jl_symbol_n demo_runtime init_state (bytes "ab" ++ x00 :: bytes "cd") 5
     = Throw EmbeddedNul init_state) /\
  (memchr0 (bytes_of (bytes "ab" ++ x00 :: bytes "cd") 5) = false ->
     @jl_symbol_n demo_runtime init_state (bytes "ab" ++ x00 :: bytes "cd") 5
     = @_jl_symbol demo_runtime init_state (bytes "ab" ++ x00 :: bytes "cd") 5) /\
  (@wf demo_runtime init_state -> valid_buf (bytes "ab" ++ x00 :: bytes "cd") 5 ->
   5 <= @MAX_SYM_LEN demo_runtime ->
   memchr0 (bytes_of (bytes "ab" ++ x00 :: bytes "cd") 5) = false ->
     exists h st',
       @jl_symbol_n demo_runtime init_state (bytes "ab" ++ x00 :: bytes "cd") 5 = Ret h st' /\
       @_jl_symbol demo_runtime init_state (bytes "ab" ++ x00 :: bytes "cd") 5 = Ret h st' /\
       h <> NULL /\
       jl_symbol_name st' h = Some (bytes_of (bytes "ab" ++ x00 :: bytes "cd") 5)).
Proof.
  apply (@symbol_n_embedded_nul demo_runtime init_state (bytes "ab" ++ x00 :: bytes "cd") 5).
Defined.

Example symbol_n_accepts :
  match @jl_symbol_n demo_runtime init_state (bytes "abcd") 4 with
  | Ret h st' => jl_symbol_name st' h
  | _ => None
  end = Some (bytes "abcd").
Proof. vm_compute. reflexivity. Qed.

(** C9.  For a name length within the maximum, the size [mk_symbol] asks
    the permanent allocator for is [symbol_nbytes len]: a multiple of 8,
    at least the header plus the name plus one terminator byte, and less
    than 8 bytes more than that. *)
Theorem symbol_nbytes_rounds_up {R : Runtime} len :
  0 <= len <= MAX_SYM_LEN ->
  symbol_nbytes len mod 8 = 0 /\
  sizeof_jl_sym_t + len + 1 <= symbol_nbytes len < sizeof_jl_sym_t + len + 1 + 8 /\
  symbol_nbytes len = 8 * ((sizeof_jl_sym_t + len + 1 + 7) / 8) /\
  (forall str st,
     trace (snd (mk_symbol str len st)) = EvAlloc (symbol_nbytes len) :: trace st).
Proof.
  intros Hlen. rewrite symbol_nbytes_eq by exact Hlen.
  set (x := sizeof_jl_sym_t + len + 1).
  pose proof (Z.div_mod (x + 7) 8 ltac:(lia)) as Hdm.
  pose proof (Z.mod_pos_bound (x + 7) 8 ltac:(lia)) as Hm.
  split; [|split; [|split]].
  - rewrite Z.mul_comm. apply Z.mod_mul. lia.
  - lia.
  - reflexivity.
  - intros str st. unfold mk_symbol, jl_gc_permobj. simpl.
    now rewrite symbol_nbytes_eq by exact Hlen.
Qed.

Lemma symbol_nbytes_rounds_up_witness :
  @symbol_nbytes demo_runtime 5 mod 8 = 0 /\
  @sizeof_jl_sym_t demo_runtime + 5 + 1 <= @symbol_nbytes demo_runtime 5
    < @sizeof_jl_sym_t demo_runtime + 5 + 1 + 8 /\
  @symbol_nbytes demo_runtime 5 = 8 * ((@sizeof_jl_sym_t demo_runtime + 5 + 1 + 7) / 8) /\
  (forall str st,
     trace (snd (@mk_symbol demo_runtime str 5 st))
     = EvAlloc (@symbol_nbytes demo_runtime 5) :: trace st).
Proof.
  apply (@symbol_nbytes_rounds_up demo_runtime 5).
  vm_compute. split; discriminate.
Defined.

(** ** The gensym names *)

Lemma digit_char_no_nul (d : Z) : 0 <= d < 10 -> digit_char d <> x00.
Proof.
  intros Hd.
  assert (d = 0 \/ d = 1 \/ d = 2 \/ d = 3 \/ d = 4 \/
          d = 5 \/ d = 6 \/ d = 7 \/ d = 8 \/ d = 9) as H by lia.
  repeat (destruct H as [-> | H]; [discriminate|]). subst. discriminate.
Qed.

Lemma uint2str_loop_length room num base acc :
  (length acc <= length (uint2str_loop room num base acc) <= room + length acc)%nat /\
  (room <> O -> (length acc < length (uint2str_loop room num base acc))%nat).
Proof.
  revert num acc. induction room as [|room IH]; intros num acc; simpl; [lia|].
  destruct (num / base =? 0); simpl; [lia|].
  destruct (IH (num / base) (digit_char (num mod base) :: acc)) as [H1 _].
  simpl in H1. lia.
Qed.

Lemma uint2str_loop_no_nul room num acc :
  memchr0 acc = false -> memchr0 (uint2str_loop room num 10 acc) = false.
Proof.
  revert num acc. induction room as [|room IH]; intros num acc Hacc; simpl; [exact Hacc|].
  assert (memchr0 (digit_char (num mod 10) :: acc) = false) as Hacc'.
  { apply memchr0_cons. split; [|exact Hacc].
    apply digit_char_no_nul, Z.mod_pos_bound. lia. }
  destruct (num / 10 =? 0); [exact Hacc' | now apply IH].
Qed.

Lemma uint2str_length num : (1 <= length (uint2str 14 num 10) <= 13)%nat.
Proof.
  unfold uint2str. change (Z.to_nat (14 - 1)) with 13%nat.
  destruct (uint2str_loop_length 13 num 10 []) as [H1 H2].
  cbn [length] in H1, H2. specialize (H2 ltac:(discriminate)). lia.
Qed.

Lemma uint2str_no_nul num : memchr0 (uint2str 14 num 10) = false.
Proof. unfold uint2str. now apply uint2str_loop_no_nul. Qed.

Lemma digit_char_value (d : Z) : 0 <= d < 10 -> byte_val (digit_char d) - 48 = d.
Proof.
  intros Hd.
  assert (d = 0 \/ d = 1 \/ d = 2 \/ d = 3 \/ d = 4 \/
          d = 5 \/ d = 6 \/ d = 7 \/ d = 8 \/ d = 9) as H by lia.
  repeat (destruct H as [-> | H]; [reflexivity|]). subst. reflexivity.
Qed.

Lemma decimal_value_fold (s : list byte) (v : Z) :
  fold_left (fun v b => 10 * v + (byte_val b - 48)) s v
  = v * 10 ^ Z.of_nat (length s) + decimal_value s.
Proof.
  unfold decimal_value. revert v. induction s as [|b s IH]; intros v.
  - simpl. lia.
  - cbn [fold_left length]. rewrite IH, (IH (10 * 0 + _)).
    rewrite Nat2Z.inj_succ, Z.pow_succ_r by lia. lia.
Qed.

Lemma decimal_value_cons (b : byte) (s : list byte) :
  decimal_value (b :: s) = (byte_val b - 48) * 10 ^ Z.of_nat (length s) + decimal_value s.
Proof.
  unfold decimal_value at 1. cbn [fold_left]. rewrite decimal_value_fold. lia.
Qed.

Lemma uint2str_loop_value room : forall num acc,
  0 <= num < 10 ^ Z.of_nat room -> room <> O ->
  decimal_value (uint2str_loop room num 10 acc)
  = num * 10 ^ Z.of_nat (length acc) + decimal_value acc.
Proof.
  induction room as [|room IH]; intros num acc Hnum Hroom; [contradiction|].
  cbn [uint2str_loop].
  pose proof (Z.div_mod num 10 ltac:(lia)) as Hdm.
  pose proof (Z.mod_pos_bound num 10 ltac:(lia)) as Hm.
  set (d := digit_char (num mod 10)).
  assert (decimal_value (d :: acc)
          = num mod 10 * 10 ^ Z.of_nat (length acc) + decimal_value acc) as Hd
    by (rewrite decimal_value_cons; unfold d; now rewrite digit_char_value).
  destruct (num / 10 =? 0) eqn:E.
  - rewrite Hd. replace (num mod 10) with num by lia. reflexivity.
  - rewrite Nat2Z.inj_succ, Z.pow_succ_r in Hnum by lia.
    assert (0 < num / 10 < 10 ^ Z.of_nat room) as Hq.
    { split; [lia|]. apply Z.div_lt_upper_bound; lia. }
    rewrite IH.
    + rewrite Hd. cbn [length]. rewrite Nat2Z.inj_succ, Z.pow_succ_r by lia. lia.
    + lia.
    + intros ->. simpl in Hq. lia.
Qed.

(** [uint2str] into a 14-byte buffer gives the decimal digits of every
    number below [10 ^ 13], so of every [uint32_t]. *)
Lemma uint2str_decimal num :
  0 <= num < 10 ^ 13 -> decimal_value (uint2str 14 num 10) = num.
Proof.
  intros Hnum. unfold uint2str. change (Z.to_nat (14 - 1)) with 13%nat.
  rewrite uint2str_loop_value; [|exact Hnum | discriminate].
  change (decimal_value []) with 0. change (Z.of_nat (length [])) with 0.
  rewrite Z.pow_0_r. lia.
Qed.

Lemma gensym_name_no_nul ctr : memchr0 (gensym_name ctr) = false.
Proof.
  unfold gensym_name. apply memchr0_cons. split; [discriminate|].
  apply memchr0_cons. split; [discriminate|]. apply uint2str_no_nul.
Qed.

Lemma tagged_name_no_nul tag ctr :
  memchr0 tag = false -> memchr0 (tagged_name tag ctr) = false.
Proof.
  intros Htag. unfold tagged_name. apply memchr0_cons. split; [discriminate|].
  apply memchr0_cons. split; [discriminate|].
  rewrite memchr0_app, Htag. cbn [orb].
  apply memchr0_cons. split; [discriminate|]. apply uint2str_no_nul.
Qed.

Lemma tagged_name_length tag ctr :
  Z.of_nat (length (tagged_name tag ctr))
  = Z.of_nat (length tag) + 3 + Z.of_nat (length (uint2str 14 ctr 10)).
Proof.
  unfold tagged_name. simpl. rewrite length_app. simpl. lia.
Qed.

Section Gensym.
Context {R : Runtime}.

(** [jl_gensym] is the counter increment followed by [_jl_symbol] on the
    name of the old counter value. *)
Lemma jl_gensym_eq st :
  jl_gensym st
  = _jl_symbol (jl_set_gs_ctr (gs_ctr st + 1) st)
      (gensym_name (gs_ctr st)) (Z.of_nat (length (gensym_name (gs_ctr st)))).
Proof.
  unfold jl_gensym, fetch_add_gs_ctr, jl_symbol.
  change (hash_sign :: hash_sign :: uint2str (16 - 2) (gs_ctr st) 10)
    with (gensym_name (gs_ctr st)).
  now rewrite (strlen_full _ (gensym_name_no_nul (gs_ctr st))).
Qed.

Lemma gensym_name_fits ctr :
  valid_buf (gensym_name ctr) (Z.of_nat (length (gensym_name ctr))) /\
  memchr0 (bytes_of (gensym_name ctr) (Z.of_nat (length (gensym_name ctr)))) = false /\
  Z.of_nat (length (gensym_name ctr)) <= MAX_SYM_LEN.
Proof.
  pose proof MAX_SYM_LEN_range as HM. split; [unfold valid_buf; lia|]. split.
  - rewrite bytes_of_all. apply gensym_name_no_nul.
  - unfold gensym_name. pose proof (uint2str_length ctr). simpl. lia.
Qed.

Lemma jl_gensym_spec st :
  wf st ->
  exists h st',
    jl_gensym st = Ret h st' /\ later st st' /\ h <> NULL /\
    jl_symbol_name st' h = Some (gensym_name (gs_ctr st)) /\
    gs_ctr st' = to_uint32_t (gs_ctr st + 1).
Proof.
  intros Hwf. rewrite jl_gensym_eq.
  destruct (gensym_name_fits (gs_ctr st)) as (Hv & Hnul & Hlen).
  set (st1 := jl_set_gs_ctr (gs_ctr st + 1) st).
  destruct (_jl_symbol_spec st1 _ _ (jl_set_gs_ctr_wf _ st Hwf) Hv Hnul Hlen) as
    (h & st' & Hr & Hlat & Hnz & Hname & Hctr & _).
  exists h, st'. rewrite bytes_of_all in Hname.
  split; [exact Hr|]. split.
  { apply (later_trans st st1 st'); [now apply jl_set_gs_ctr_later | exact Hlat]. }
  split; [exact Hnz|]. split; [exact Hname | exact Hctr].
Qed.

(** Successive calls count up from the counter, as long as it does not
    wrap. *)
Lemma gensym_names_seq n : forall st,
  wf st -> gs_ctr st + Z.of_nat n <= 2 ^ 32 ->
  gensym_names n st
  = map (fun i => Some (gensym_name (gs_ctr st + Z.of_nat i))) (seq 0 n).
Proof.
  induction n as [|n IH]; intros st Hwf Hn; [reflexivity|].
  destruct (jl_gensym_spec st Hwf) as (h & st' & Hr & [Hwf' _] & _ & Hname & Hctr).
  cbn [gensym_names]. rewrite Hr, Hname. cbn [seq map]. f_equal.
  - now rewrite Z.add_0_r.
  - destruct n as [|n]; [reflexivity|].
    pose proof (wf_ctr st Hwf) as Hc.
    assert (gs_ctr st' = gs_ctr st + 1) as Hctr'
      by (rewrite Hctr; unfold to_uint32_t; apply Z.mod_small; lia).
    rewrite IH by (auto; lia). rewrite <- seq_shift, map_map.
    apply map_ext. intros i. rewrite Hctr'. do 2 f_equal. lia.
Qed.

Lemma tagged_name_buffer tag digits :
  hash_sign :: hash_sign :: tag ++ hash_sign :: digits ++ [x00]
  = (hash_sign :: hash_sign :: tag ++ hash_sign :: digits) ++ [x00].
Proof. simpl. now rewrite <- app_assoc. Qed.

(** After the checks, for a tag whose scratch buffer fits,
    [jl_tagged_gensym] is the counter increment followed by [_jl_symbol] on
    the name built in the buffer. *)
Lemma jl_tagged_gensym_name_eq st str len :
  valid_buf str len -> len + 17 <= MAX_SYM_LEN ->
  jl_tagged_gensym_name st str len
  = _jl_symbol (jl_set_gs_ctr (gs_ctr st + 1) st)
      (tagged_name (bytes_of str len) (gs_ctr st) ++ [x00])
      (Z.of_nat (length (tagged_name (bytes_of str len) (gs_ctr st)))).
Proof.
  intros Hv Hlen. pose proof MAX_SYM_LEN_range as HM. pose proof Hv as [Hv0 Hv1].
  unfold jl_tagged_gensym_name, fetch_add_gs_ctr.
  rewrite (to_size_t_small (14 + len + 3)) by lia.
  destruct (len >? MAX_SYM_LEN) eqn:E1; [lia|].
  destruct (14 + len + 3 >? MAX_SYM_LEN) eqn:E2; [lia|]. cbn [orb].
  set (digits := uint2str 14 (gs_ctr st) 10).
  pose proof (uint2str_length (gs_ctr st)) as Hd. fold digits in Hd.
  rewrite tagged_name_buffer.
  change (hash_sign :: hash_sign :: bytes_of str len ++ hash_sign :: digits)
    with (tagged_name (bytes_of str len) (gs_ctr st)).
  set (tn := tagged_name (bytes_of str len) (gs_ctr st)).
  assert (Z.of_nat (length tn) = len + 3 + Z.of_nat (length digits)) as Htn
    by (unfold tn; rewrite tagged_name_length, bytes_of_length by exact Hv; reflexivity).
  rewrite to_size_t_small by lia.
  f_equal. lia.
Qed.

Lemma tagged_name_fits str len ctr :
  valid_buf str len -> memchr0 (bytes_of str len) = false -> len + 17 <= MAX_SYM_LEN ->
  let tn := tagged_name (bytes_of str len) ctr in
  bytes_of (tn ++ [x00]) (Z.of_nat (length tn)) = tn /\
  valid_buf (tn ++ [x00]) (Z.of_nat (length tn)) /\
  memchr0 (bytes_of (tn ++ [x00]) (Z.of_nat (length tn))) = false /\
  Z.of_nat (length tn) <= MAX_SYM_LEN.
Proof.
  intros Hv Hnul Hlen tn.
  assert (bytes_of (tn ++ [x00]) (Z.of_nat (length tn)) = tn) as Hb
    by (unfold bytes_of; rewrite Nat2Z.id; apply take_app_length).
  split; [exact Hb|]. split; [|split].
  - unfold valid_buf. rewrite length_app. simpl. lia.
  - rewrite Hb. now apply tagged_name_no_nul.
  - unfold tn. rewrite tagged_name_length, bytes_of_length by exact Hv.
    pose proof (uint2str_length ctr). lia.
Qed.

Lemma jl_tagged_gensym_name_spec st str len :
  wf st -> valid_buf str len -> memchr0 (bytes_of str len) = false ->
  len + 17 <= MAX_SYM_LEN ->
  exists h st',
    jl_tagged_gensym_name st str len = Ret h st' /\ later st st' /\ h <> NULL /\
    jl_symbol_name st' h = Some (tagged_name (bytes_of str len) (gs_ctr st)) /\
    gs_ctr st' = to_uint32_t (gs_ctr st + 1).
Proof.
  intros Hwf Hv Hnul Hlen. rewrite jl_tagged_gensym_name_eq by assumption.
  destruct (tagged_name_fits str len (gs_ctr st) Hv Hnul Hlen) as (Hb & Hv' & Hnul' & Hlen').
  set (st1 := jl_set_gs_ctr (gs_ctr st + 1) st).
  destruct (_jl_symbol_spec st1 _ _ (jl_set_gs_ctr_wf _ st Hwf) Hv' Hnul' Hlen') as
    (h & st' & Hr & Hlat & Hnz & Hname & Hctr & _).
  exists h, st'. rewrite Hb in Hname.
  split; [exact Hr|]. split.
  { apply (later_trans st st1 st'); [now apply jl_set_gs_ctr_later | exact Hlat]. }
  split; [exact Hnz|]. split; [exact Hname | exact Hctr].
Qed.

Lemma jl_tagged_gensym_name_too_long st str len :
  0 <= len -> MAX_SYM_LEN < len + 17 ->
  jl_tagged_gensym_name st str len = Throw NameTooLong st.
Proof.
  intros H0 Hlen. pose proof MAX_SYM_LEN_range as HM.
  unfold jl_tagged_gensym_name.
  destruct (len >? MAX_SYM_LEN) eqn:E1; [reflexivity|].
  rewrite (to_size_t_small (14 + len + 3)) by lia.
  destruct (14 + len + 3 >? MAX_SYM_LEN) eqn:E2; [reflexivity | lia].
Qed.

(** The only error raised after the checks on the tag is NameTooLong. *)
Lemma jl_tagged_gensym_name_throw st str len e st' :
  jl_tagged_gensym_name st str len = Throw e st' -> e = NameTooLong.
Proof.
  unfold jl_tagged_gensym_name, fetch_add_gs_ctr.
  destruct ((len >? MAX_SYM_LEN) || (to_size_t (14 + len + 3) >? MAX_SYM_LEN)).
  - now intros [= <- _].
  - intros H. now apply _jl_symbol_throw in H as (-> & _).
Qed.

(** The entry points keep the registry among the reachable states. *)
Lemma jl_symbol_reachable log st str h st' :
  reachable log st -> jl_symbol st str = Ret h st' ->
  reachable (bytes_of str (strlen str) :: log) st'.
Proof.
  intros Hreach Hr. apply (reach_intern log st str (strlen str) h); auto.
  - apply strlen_valid.
  - apply strlen_no_nul.
Qed.

Lemma jl_symbol_n_reachable log st str len h st' :
  reachable log st -> valid_buf str len -> jl_symbol_n st str len = Ret h st' ->
  reachable (bytes_of str len :: log) st'.
Proof.
  intros Hreach Hv. unfold jl_symbol_n.
  destruct (memchr0 (bytes_of str len)) eqn:Hnul; [discriminate|].
  now apply reach_intern.
Qed.

Lemma jl_gensym_reachable log st h st' :
  reachable log st -> jl_gensym st = Ret h st' ->
  reachable (gensym_name (gs_ctr st) :: log) st'.
Proof.
  intros Hreach. rewrite jl_gensym_eq. intros Hr.
  destruct (gensym_name_fits (gs_ctr st)) as (Hv & Hnul & _).
  pose proof (reach_intern log _ _ _ h st'
                (reach_ctr log st (gs_ctr st + 1) Hreach) Hv Hnul Hr) as H.
  now rewrite bytes_of_all in H.
Qed.

Lemma jl_tagged_gensym_name_reachable log st str len h st' :
  reachable log st -> valid_buf str len -> memchr0 (bytes_of str len) = false ->
  jl_tagged_gensym_name st str len = Ret h st' ->
  reachable (tagged_name (bytes_of str len) (gs_ctr st) :: log) st'.
Proof.
  intros Hreach Hv Hnul Hr. pose proof MAX_SYM_LEN_range as HM.
  assert (len + 17 <= MAX_SYM_LEN) as Hlen.
  { destruct (Z_le_gt_dec (len + 17) MAX_SYM_LEN) as [|Hgt]; [assumption|].
    rewrite jl_tagged_gensym_name_too_long in Hr; [discriminate | apply Hv | lia]. }
  rewrite jl_tagged_gensym_name_eq in Hr by assumption.
  destruct (tagged_name_fits str len (gs_ctr st) Hv Hnul Hlen) as (Hb & Hv' & Hnul' & _).
  pose proof (reach_intern log _ _ _ h st'
                (reach_ctr log st (gs_ctr st + 1) Hreach) Hv' Hnul' Hr) as H.
  now rewrite Hb in H.
Qed.

Lemma jl_tagged_gensym_reachable log st str len h st' :
  reachable log st -> (len <> SIZE_MAX -> valid_buf str len) ->
  jl_tagged_gensym st str len = Ret h st' ->
  exists tag, reachable (tagged_name tag (gs_ctr st) :: log) st'.
Proof.
  intros Hreach Hv. unfold jl_tagged_gensym.
  destruct (len =? SIZE_MAX) eqn:E.
  - intros Hr. eexists.
    apply (jl_tagged_gensym_name_reachable log st str (strlen str) h);
      auto using strlen_valid, strlen_no_nul.
  - destruct (memchr0 (bytes_of str len)) eqn:Hnul; [discriminate|].
    intros Hr. eexists.
    apply (jl_tagged_gensym_name_reachable log st str len h); auto. apply Hv. lia.
Qed.

End Gensym.

Lemma demo_MAX_SYM_LEN : @MAX_SYM_LEN demo_runtime = 9223372036854775774.
Proof. reflexivity. Qed.

(** C5, as the code has it.  [jl_gensym] returns the symbol named "##"
    followed by the decimal digits of the counter before the call, and
    adds one to the counter modulo [2 ^ 32].  From counter 0, [n] calls in
    a row yield "##0", "##1", ... in call order.  After
    [jl_set_gs_ctr (2 ^ 32 - 1)] the next call yields "##4294967295" and
    wraps the counter, and the call after it yields "##0". *)
Theorem gensym_counter_names {R : Runtime} st :
  wf st ->
  (exists h st',
     jl_gensym st = Ret h st' /\
     jl_symbol_name st' h = Some (gensym_name (gs_ctr st)) /\
     decimal_value (uint2str 14 (gs_ctr st) 10) = gs_ctr st /\
     gs_ctr st' = to_uint32_t (gs_ctr st + 1)) /\
  (forall n, Z.of_nat n <= 2 ^ 32 ->
     gensym_names n (jl_set_gs_ctr 0 st)
     = map (fun i => Some (gensym_name (Z.of_nat i))) (seq 0 n)) /\
  gensym_names 2 (jl_set_gs_ctr 0 st) = [Some (bytes "##0"); Some (bytes "##1")] /\
  gensym_names 2 (jl_set_gs_ctr (2 ^ 32 - 1) st)
  = [Some (bytes "##4294967295"); Some (bytes "##0")].
Proof.
  intros Hwf. split; [|split; [|split]].
  - destruct (jl_gensym_spec st Hwf) as (h & st' & Hr & _ & _ & Hname & Hctr).
    exists h, st'. split; [exact Hr|]. split; [exact Hname|]. split; [|exact Hctr].
    apply uint2str_decimal. pose proof (wf_ctr st Hwf). lia.
  - intros n Hn. rewrite gensym_names_seq.
    + reflexivity.
    + now apply jl_set_gs_ctr_wf.
    + change (gs_ctr (jl_set_gs_ctr 0 st)) with 0. lia.
  - rewrite gensym_names_seq.
    + reflexivity.
    + now apply jl_set_gs_ctr_wf.
    + change (gs_ctr (jl_set_gs_ctr 0 st)) with 0. lia.
  - set (st0 := jl_set_gs_ctr (2 ^ 32 - 1) st).
    assert (wf st0) as Hwf0 by now apply jl_set_gs_ctr_wf.
    destruct (jl_gensym_spec st0 Hwf0) as (h & st1 & Hr & [Hwf1 _] & _ & Hname & Hctr).
    cbn [gensym_names]. rewrite Hr, Hname.
    destruct (jl_gensym_spec st1 Hwf1) as (h' & st2 & Hr' & _ & _ & Hname' & _).
    rewrite Hr', Hname', Hctr. reflexivity.
Qed.

Lemma gensym_counter_names_witness :
  (exists h st',
     @jl_gensym demo_runtime init_state = Ret h st' /\
     jl_symbol_name st' h = Some (gensym_name (gs_ctr init_state)) /\
     decimal_value (uint2str 14 (gs_ctr init_state) 10) = gs_ctr init_state /\
     gs_ctr st' = to_uint32_t (gs_ctr init_state + 1)) /\
  (forall n, Z.of_nat n <= 2 ^ 32 ->
     @gensym_names demo_runtime n (jl_set_gs_ctr 0 init_state)
     = map (fun i => Some (gensym_name (Z.of_nat i))) (seq 0 n)) /\
  @gensym_names demo_runtime 2 (jl_set_gs_ctr 0 init_state)
  = [Some (bytes "##0"); Some (bytes "##1")] /\
  @gensym_names demo_runtime 2 (jl_set_gs_ctr (2 ^ 32 - 1) init_state)
  = [Some (bytes "##4294967295"); Some (bytes "##0")].
Proof.
  apply (@gensym_counter_names demo_runtime init_state). apply demo_wf_init.
Defined.

(** C5 as stated fails: right after [jl_set_gs_ctr (2 ^ 32 - 1)] the name
    returned is "##4294967295", not "##0". *)
Lemma gensym_after_set_ctr_max :
  @gensym_names demo_runtime 1 (jl_set_gs_ctr (2 ^ 32 - 1) init_state)
  = [Some (bytes "##4294967295")] /\
  bytes "##4294967295" <> bytes "##0".
Proof. split; [vm_compute; reflexivity | discriminate]. Qed.

(** C6.  For a tag length other than the sentinel: with a terminator
    within the tag the call raises EmbeddedNul; without one it raises
    NameTooLong whenever the generated name would be longer than
    [MAX_SYM_LEN] (the test is on the tag length plus 17: the two-byte
    prefix, the separator and the 14-byte digit buffer); and otherwise it
    returns the symbol named "##" + tag + "#" + digits of the counter
    before the call.  Both errors return the state unchanged.  For a tag
    of at most 2^62 - 17 bytes, which is every tag a caller can hold in
    memory, the generated name is within [MAX_SYM_LEN] and the call
    returns that symbol. *)
Theorem tagged_gensym_spec {R : Runtime} st tag len :
  wf st -> valid_buf tag len -> len <> SIZE_MAX ->
  (memchr0 (bytes_of tag len) = true ->
     jl_tagged_gensym st tag len = Throw EmbeddedNul st) /\
  (memchr0 (bytes_of tag len) = false -> MAX_SYM_LEN < len + 17 ->
     jl_tagged_gensym st tag len = Throw NameTooLong st) /\
  (memchr0 (bytes_of tag len) = false ->
     MAX_SYM_LEN < Z.of_nat (length (tagged_name (bytes_of tag len) (gs_ctr st))) ->
     jl_tagged_gensym st tag len = Throw NameTooLong st) /\
  (memchr0 (bytes_of tag len) = false -> len + 17 <= MAX_SYM_LEN ->
     exists h st',
       jl_tagged_gensym st tag len = Ret h st' /\ later st st' /\
       jl_symbol_name st' h = Some (tagged_name (bytes_of tag len) (gs_ctr st)) /\
       decimal_value (uint2str 14 (gs_ctr st) 10) = gs_ctr st /\
       gs_ctr st' = to_uint32_t (gs_ctr st + 1)) /\
  (memchr0 (bytes_of tag len) = false -> len <= 2 ^ 62 - 17 ->
     Z.of_nat (length (tagged_name (bytes_of tag len) (gs_ctr st))) <= MAX_SYM_LEN /\
     exists h st',
       jl_tagged_gensym st tag len = Ret h st' /\ h <> NULL /\
       jl_symbol_name st' h = Some (tagged_name (bytes_of tag len) (gs_ctr st)) /\
       jl_symbol_lookup st' (tagged_name (bytes_of tag len) (gs_ctr st)) = Ret h st' /\
       decimal_value (uint2str 14 (gs_ctr st) 10) = gs_ctr st /\
       gs_ctr st' = to_uint32_t (gs_ctr st + 1)).
Proof.
  intros Hwf Hv Hsent. unfold jl_tagged_gensym.
  destruct (len =? SIZE_MAX) eqn:E; [lia|]. clear E.
  pose proof Hv as [Hv0 _].
  destruct (memchr0 (bytes_of tag len)) eqn:Hnul.
  - repeat split; easy.
  - split; [easy|]. split; [|split; [|split]].
    + intros _ Hlong. now apply jl_tagged_gensym_name_too_long.
    + intros _ Hlong. apply jl_tagged_gensym_name_too_long; [exact Hv0|].
      rewrite tagged_name_length, bytes_of_length in Hlong by exact Hv.
      pose proof (uint2str_length (gs_ctr st)). lia.
    + intros _ Hfit.
      destruct (jl_tagged_gensym_name_spec st tag len Hwf Hv Hnul Hfit)
        as (h & st' & Hr & Hlat & _ & Hname & Hctr).
      exists h, st'. split; [exact Hr|]. split; [exact Hlat|].
      split; [exact Hname|]. split; [|exact Hctr].
      apply uint2str_decimal. pose proof (wf_ctr st Hwf). lia.
    + intros _ Hmem. pose proof MAX_SYM_LEN_range as Hmax.
      assert (len + 17 <= MAX_SYM_LEN) as Hfit by lia.
      split.
      { rewrite tagged_name_length, bytes_of_length by exact Hv.
        pose proof (uint2str_length (gs_ctr st)). lia. }
      destruct (jl_tagged_gensym_name_spec st tag len Hwf Hv Hnul Hfit)
        as (h & st' & Hr & Hlat & Hnz & Hname & Hctr).
      exists h, st'. split; [exact Hr|]. split; [exact Hnz|].
      split; [exact Hname|]. split; [|split; [|exact Hctr]].
      * destruct Hlat as [Hwf' _].
        destruct (tagged_name_fits tag len (gs_ctr st) Hv Hnul Hfit) as (Hb & _ & Hnul' & _).
        set (nm := tagged_name (bytes_of tag len) (gs_ctr st)) in *.
        assert (strlen nm = Z.of_nat (length nm)) as Hsl.
        { apply strlen_full. rewrite <- Hb. exact Hnul'. }
        assert (jl_symbol_name st' h = Some (bytes_of nm (strlen nm))) as Hname'.
        { rewrite Hname, Hsl. f_equal. symmetry. apply bytes_of_all. }
        destruct (lookup_complete st' nm (strlen nm) h Hwf' (strlen_valid nm) Hname')
          as [sl Hl].
        unfold jl_symbol_lookup. now rewrite Hl.
      * apply uint2str_decimal. pose proof (wf_ctr st Hwf). lia.
Qed.

Lemma tagged_gensym_spec_witness :
  (memchr0 (bytes_of (bytes "foo") 3) = true ->
     @jl_tagged_gensym demo_runtime init_state (bytes "foo") 3
     = Throw EmbeddedNul init_state) /\
  (memchr0 (bytes_of (bytes "foo") 3) = false -> @MAX_SYM_LEN demo_runtime < 3 + 17 ->
     @jl_tagged_gensym demo_runtime init_state (bytes "foo") 3
     = Throw NameTooLong init_state) /\
  (memchr0 (bytes_of (bytes "foo") 3) = false ->
     @MAX_SYM_LEN demo_runtime
     < Z.of_nat (length (tagged_name (bytes_of (bytes "foo") 3) (gs_ctr init_state))) ->
     @jl_tagged_gensym demo_runtime init_state (bytes "foo") 3
     = Throw NameTooLong init_state) /\
  (memchr0 (bytes_of (bytes "foo") 3) = false -> 3 + 17 <= @MAX_SYM_LEN demo_runtime ->
     exists h st',
       @jl_tagged_gensym demo_runtime init_state (bytes "foo") 3 = Ret h st' /\
       @later demo_runtime init_state st' /\
       jl_symbol_name st' h
       = Some (tagged_name (bytes_of (bytes "foo") 3) (gs_ctr init_state)) /\
       decimal_value (uint2str 14 (gs_ctr init_state) 10) = gs_ctr init_state /\
       gs_ctr st' = to_uint32_t (gs_ctr init_state + 1)) /\
  (memchr0 (bytes_of (bytes "foo") 3) = false -> 3 <= 2 ^ 62 - 17 ->
     Z.of_nat (length (tagged_name (bytes_of (bytes "foo") 3) (gs_ctr init_state)))
     <= @MAX_SYM_LEN demo_runtime /\
     exists h st',
       @jl_tagged_gensym demo_runtime init_state (bytes "foo") 3 = Ret h st' /\
       h <> NULL /\
       jl_symbol_name st' h
       = Some (tagged_name (bytes_of (bytes "foo") 3) (gs_ctr init_state)) /\
       @jl_symbol_lookup demo_runtime st'
         (tagged_name (bytes_of (bytes "foo") 3) (gs_ctr init_state)) = Ret h st' /\
       decimal_value (uint2str 14 (gs_ctr init_state) 10) = gs_ctr init_state /\
       gs_ctr st' = to_uint32_t (gs_ctr init_state + 1)).
Proof.
  apply (@tagged_gensym_spec demo_runtime init_state (bytes "foo") 3).
  - apply demo_wf_init.
  - unfold valid_buf. simpl. lia.
  - discriminate.
Defined.

(** C10.  With the tag length [(size_t)-1] the length is [strlen] of the
    tag, the scan for a terminator is skipped and the call never raises
    EmbeddedNul.  With any other tag length the call raises EmbeddedNul
    exactly when a terminator occurs in the first [len] bytes, and the
    bytes after them play no part. *)
Theorem tagged_gensym_sentinel {R : Runtime} st str len :
  jl_tagged_gensym st str SIZE_MAX = jl_tagged_gensym_name st str (strlen str) /\
  (forall st', jl_tagged_gensym st str SIZE_MAX <> Throw EmbeddedNul st') /\
  (len <> SIZE_MAX ->
     ((exists st', jl_tagged_gensym st str len = Throw EmbeddedNul st')
        <-> memchr0 (bytes_of str len) = true) /\
     jl_tagged_gensym st (bytes_of str len) len = jl_tagged_gensym st str len).
Proof.
  split; [reflexivity|]. split.
  - intros st' H. change (jl_tagged_gensym st str SIZE_MAX)
      with (jl_tagged_gensym_name st str (strlen str)) in H.
    apply jl_tagged_gensym_name_throw in H. discriminate.
  - intros Hsent. unfold jl_tagged_gensym.
    destruct (len =? SIZE_MAX) eqn:E; [lia|]. clear E.
    rewrite bytes_of_idem. split.
    + destruct (memchr0 (bytes_of str len)) eqn:Hnul.
      * split; eauto.
      * split; [|discriminate]. intros [st' H].
        apply jl_tagged_gensym_name_throw in H. discriminate.
    + destruct (memchr0 (bytes_of str len)); [reflexivity|].
      unfold jl_tagged_gensym_name. now rewrite bytes_of_idem.
Qed.

Lemma tagged_gensym_sentinel_witness :
  @jl_tagged_gensym demo_runtime init_state (bytes "ab" ++ x00 :: bytes "cd") SIZE_MAX
  = @jl_tagged_gensym_name demo_runtime init_state (bytes "ab" ++ x00 :: bytes "cd")
      (strlen (bytes "ab" ++ x00 :: bytes "cd")) /\
  (forall st',
     @jl_tagged_gensym demo_runtime init_state (bytes "ab" ++ x00 :: bytes "cd") SIZE_MAX
     <> Throw EmbeddedNul st') /\
  (5 <> SIZE_MAX ->
     ((exists st',
         @jl_tagged_gensym demo_runtime init_state (bytes "ab" ++ x00 :: bytes "cd") 5
         = Throw EmbeddedNul st')
        <-> memchr0 (bytes_of (bytes "ab" ++ x00 :: bytes "cd") 5) = true) /\
     @jl_tagged_gensym demo_runtime init_state
       (bytes_of (bytes "ab" ++ x00 :: bytes "cd") 5) 5
     = @jl_tagged_gensym demo_runtime init_state (bytes "ab" ++ x00 :: bytes "cd") 5).
Proof.
  apply (@tagged_gensym_sentinel demo_runtime init_state (bytes "ab" ++ x00 :: bytes "cd") 5).
Defined.

(** ** The order of the tree *)

(** The direction taken on unequal hashes is the order of the two hashes
    as long as they are less than [2 ^ 63] apart. *)
Lemma symtab_cmp_hash_near h s len node nd :
  0 <= h < 2 ^ 64 -> 0 <= sym_hash nd < 2 ^ 64 ->
  h <> sym_hash nd -> Z.abs (h - sym_hash nd) < 2 ^ 63 ->
  symtab_cmp h s len node nd
  = inr (if h <? sym_hash nd then SlotLeft node else SlotRight node).
Proof.
  intros Hh Hn Hne Hd. unfold symtab_cmp.
  pose proof (to_intptr_t_zero h (sym_hash nd) Hh Hn) as Hz.
  pose proof (to_intptr_t_neg h (sym_hash nd) Hh Hn Hd) as Hs.
  destruct (to_intptr_t (h - sym_hash nd) =? 0) eqn:E0; [lia|].
  destruct (to_intptr_t (h - sym_hash nd) <? 0) eqn:E1;
    destruct (h <? sym_hash nd) eqn:E2; try reflexivity; lia.
Qed.

(** On equal hashes the direction is that of [strncmp] over the probe's
    length; a probe that is a proper prefix of the node's name goes right. *)
Lemma symtab_cmp_hash_tie h s len node nd :
  0 <= h < 2 ^ 64 -> h = sym_hash nd ->
  symtab_cmp h s len node nd
  = let x := strncmp s (sym_name nd) (Z.to_nat len) in
    if (x =? 0) && is_nul (char_at (sym_name nd) (Z.to_nat len)) then inl node
    else inr (if x <? 0 then SlotLeft node else SlotRight node).
Proof.
  intros Hh ->. unfold symtab_cmp. now rewrite to_intptr_t_self.
Qed.

(** Hashes more than [2 ^ 63] apart: the probe with the smaller hash is
    sent right, the one with the larger hash left. *)
Lemma symtab_cmp_hash_far h s len node nd :
  0 <= h < 2 ^ 64 -> 0 <= sym_hash nd < 2 ^ 64 ->
  2 ^ 63 < Z.abs (h - sym_hash nd) ->
  symtab_cmp h s len node nd
  = inr (if h <? sym_hash nd then SlotRight node else SlotLeft node).
Proof.
  intros Hh Hn Hd. unfold symtab_cmp, to_intptr_t.
  destruct (h <? sym_hash nd) eqn:E2.
  - replace ((h - sym_hash nd) mod 2 ^ 64) with (h - sym_hash nd + 2 ^ 64)
      by (apply Z.mod_unique with (q := -1); lia).
    destruct (h - sym_hash nd + 2 ^ 64 <? 2 ^ 63) eqn:E; [|lia].
    destruct (h - sym_hash nd + 2 ^ 64 =? 0) eqn:E0; [lia|].
    destruct (h - sym_hash nd + 2 ^ 64 <? 0) eqn:E1; [lia | reflexivity].
  - rewrite Z.mod_small by lia.
    destruct (h - sym_hash nd <? 2 ^ 63) eqn:E; [lia|].
    destruct (h - sym_hash nd - 2 ^ 64 =? 0) eqn:E0; [lia|].
    destruct (h - sym_hash nd - 2 ^ 64 <? 0) eqn:E1; [reflexivity | lia].
Qed.

(** A lookup that visits a node whose hash is more than [2 ^ 63] above the
    probe's goes on in the node's right subtree. *)
Lemma symtab_walk_far_right {R : Runtime} fuel st ptree str len node nd :
  load st ptree = Some node -> node <> NULL -> heap st !! node = Some nd ->
  sym_hash nd < 2 ^ 64 ->
  2 ^ 63 < sym_hash nd - hash_symbol str len ->
  symtab_walk (S fuel) st ptree (hash_symbol str len) (bytes_of str len) len
  = symtab_walk fuel st (SlotRight node) (hash_symbol str len) (bytes_of str len) len.
Proof.
  intros Hl Hnode Hnd Hn Hfar. pose proof (hash_symbol_range str len) as Hh.
  cbn [symtab_walk]. rewrite Hl. simpl.
  destruct (decide (node = NULL)); [contradiction|]. rewrite Hnd. simpl.
  rewrite symtab_cmp_hash_far by lia.
  destruct (hash_symbol str len <? sym_hash nd) eqn:E; [reflexivity | lia].
Qed.

(** C2 at its failing inputs.  A probe with hash 1 at a node with hash
    [2 ^ 63 + 2] is sent right although 1 is the smaller number; read as
    signed integers, a probe with hash [2 ^ 63] (the least [intptr_t]) at a
    node with hash [2 ^ 63 - 1] (the greatest) is sent right as well.  The
    directions do not come from one order: 0 goes left of [3 * 2 ^ 61],
    [3 * 2 ^ 61] left of [6 * 2 ^ 61], and [6 * 2 ^ 61] left of 0.  And a
    run, with the stand-in hash of [demo_runtime]: "world" hashes lower
    than "bar" and is hung to the right of it. *)
Theorem tree_order_wraps :
  let node h := {| sym_left := NULL; sym_right := NULL;
                   sym_hash := h; sym_name := bytes "a" |} in
  (symtab_cmp 1 (bytes "b") 1 8 (node (2 ^ 63 + 2)) = inr (SlotRight 8)
   /\ 1 < 2 ^ 63 + 2) /\
  (symtab_cmp (2 ^ 63) (bytes "b") 1 8 (node (2 ^ 63 - 1)) = inr (SlotRight 8)
   /\ to_intptr_t (2 ^ 63) < to_intptr_t (2 ^ 63 - 1)) /\
  (symtab_cmp 0 (bytes "b") 1 8 (node (3 * 2 ^ 61)) = inr (SlotLeft 8) /\
   symtab_cmp (3 * 2 ^ 61) (bytes "b") 1 8 (node (6 * 2 ^ 61)) = inr (SlotLeft 8) /\
   symtab_cmp (6 * 2 ^ 61) (bytes "b") 1 8 (node 0) = inr (SlotLeft 8)) /\
  match @_jl_symbol demo_runtime init_state (bytes "bar") 3 with
  | Ret b st1 =>
      match @_jl_symbol demo_runtime st1 (bytes "world") 5 with
      | Ret w st2 =>
          Some (b, w, load st2 (SlotLeft b), load st2 (SlotRight b),
                @hash_symbol demo_runtime (bytes "world") 5
                <? @hash_symbol demo_runtime (bytes "bar") 3)
      | _ => None
      end
  | _ => None
  end = Some (8, 40, Some NULL, Some 40, true).
Proof.
  cbv zeta. repeat split; vm_compute; reflexivity.
Qed.

(** ** The re-validation under the lock *)

(** X1.  The critical section of [_jl_symbol], entered with the slot in
    which an unlocked lookup of the name ended, in a state where other
    callers have published nodes since that lookup: it returns the one
    symbol of the name.  If the name is in the table by then, its node is
    returned and nothing is allocated; otherwise the new node is published
    where the repeated lookup ends. *)
Theorem double_checked_insert {R : Runtime} st0 st str len sl0 :
  wf st0 -> valid_buf str len -> memchr0 (bytes_of str len) = false ->
  len <= MAX_SYM_LEN ->
  symtab_lookup st0 SlotRoot str len = Some (NULL, sl0) ->
  grows st0 st -> wf st ->
  exists h st',
    _jl_symbol_locked st sl0 str len = Ret h st' /\ later st st' /\ h <> NULL /\
    jl_symbol_name st' h = Some (bytes_of str len) /\
    (forall a, jl_symbol_name st a = Some (bytes_of str len) ->
       h = a /\ heap st' = heap st /\ perm_next st' = perm_next st).
Proof.
  intros Hwf0 Hv Hnul Hlen Hprobe Hg Hwf.
  unfold symtab_lookup in Hprobe.
  destruct (grows_walk st0 st _ _ _ _ _ Hg Hprobe) as (f & [node sl1] & Hf & Hroot & Hslot).
  assert (symtab_lookup st SlotRoot str len = Some (node, sl1)) as Hl
    by (unfold symtab_lookup; apply (symtab_walk_le f); [lia | exact Hroot]).
  assert (symtab_lookup st sl0 str len = Some (node, sl1)) as Hl0
    by (unfold symtab_lookup; apply (symtab_walk_le f); [lia | exact Hslot]).
  assert (symtab_lookup (uv_mutex_lock st) sl0 str len = Some (node, sl1)) as Hl0'
    by (rewrite <- Hl0; unfold symtab_lookup; apply symtab_walk_ext; reflexivity).
  unfold _jl_symbol_locked. unfold uv_mutex_lock at 1. rewrite load_emit.
  destruct (load st sl0) as [cur|] eqn:Hcur.
  2:{ exfalso. unfold symtab_lookup in Hl0. simpl in Hl0. rewrite Hcur in Hl0. discriminate. }
  destruct (decide (cur = NULL)) as [->|Hne].
  - (* still empty *)
    assert (node = NULL /\ sl1 = sl0) as [-> ->].
    { unfold symtab_lookup in Hl0. simpl in Hl0. rewrite Hcur in Hl0. simpl in Hl0.
      destruct (decide (NULL = NULL)); [|contradiction]. now injection Hl0. }
    destruct (decide (NULL <> NULL /\ NULL <> NULL)) as [[? _]|]; [contradiction|].
    destruct (publish_spec st sl0 str len Hwf Hv Hnul Hlen Hl)
      as (Hlat & Hp & Hname & _).
    eexists _, _. split; [reflexivity|]. split; [exact Hlat|].
    split; [exact Hp|]. split; [exact Hname|].
    intros a Ha. exfalso. now apply (lookup_miss st str len sl0 a).
  - (* filled meanwhile: look up again, from the slot *)
    rewrite Hl0'.
    destruct (decide (cur <> NULL /\ node <> NULL)) as [[_ Hnode]|Hno].
    + pose proof (lookup_found st str len node sl1 Hwf Hv Hnul Hl Hnode) as Hname.
      exists node, (uv_mutex_unlock (uv_mutex_lock st)).
      split; [reflexivity|]. split.
      { split; [now apply (wf_ext st) | intros a nd Ha; eauto]. }
      split; [exact Hnode|]. split; [exact Hname|].
      intros a Ha. split; [|split; reflexivity].
      now apply (wf_unique st node a (bytes_of str len)).
    + assert (node = NULL) as ->
        by (destruct (decide (node = NULL)); [assumption | exfalso; auto]).
      destruct (publish_spec st sl1 str len Hwf Hv Hnul Hlen Hl)
        as (Hlat & Hp & Hname & _).
      eexists _, _. split; [reflexivity|]. split; [exact Hlat|].
      split; [exact Hp|]. split; [exact Hname|].
      intros a Ha. exfalso. now apply (lookup_miss st str len sl1 a).
Qed.

Lemma double_checked_insert_witness :
  exists h st',
    @_jl_symbol_locked demo_runtime demo_state SlotRoot (bytes "hello") 5 = Ret h st' /\
    @later demo_runtime demo_state st' /\ h <> NULL /\
    jl_symbol_name st' h = Some (bytes_of (bytes "hello") 5) /\
    (forall a, jl_symbol_name demo_state a = Some (bytes_of (bytes "hello") 5) ->
       h = a /\ heap st' = heap demo_state /\ perm_next st' = perm_next demo_state).
Proof.
  apply (@double_checked_insert demo_runtime init_state demo_state (bytes "hello") 5 SlotRoot).
  - apply demo_wf_init.
  - unfold valid_buf. simpl. lia.
  - reflexivity.
  - vm_compute. discriminate.
  - reflexivity.
  - apply (@_jl_symbol_grows demo_runtime init_state (bytes "hello") 5 8 demo_state).
    + apply demo_wf_init.
    + unfold valid_buf. simpl. lia.
    + reflexivity.
    + apply demo_state_eq.
  - apply (@reachable_wf demo_runtime [bytes "hello"]), demo_state_reachable.
Defined.

(** Two callers race for "hello": the second one's unlocked lookup misses
    on the empty table, the first one publishes its node, and the second
    one's critical section returns that node, 8, without allocating. *)
Example race_for_hello :
  @symtab_lookup demo_runtime init_state SlotRoot (bytes "hello") 5 = Some (NULL, SlotRoot) /\
  @_jl_symbol demo_runtime init_state (bytes "hello") 5 = Ret 8 demo_state /\
  @_jl_symbol_locked demo_runtime demo_state SlotRoot (bytes "hello") 5
  = Ret 8 (uv_mutex_unlock (uv_mutex_lock demo_state)).
Proof. repeat split; vm_compute; reflexivity. Qed.

(** ** What publication leaves alone *)

Lemma attached_children st st' sl p nd0 a nd :
  attached st st' sl p nd0 -> heap st !! a = Some nd ->
  exists nd', heap st' !! a = Some nd' /\
    sym_name nd' = sym_name nd /\ sym_hash nd' = sym_hash nd /\
    (sym_left nd' = sym_left nd \/ sym_left nd = NULL /\ sym_left nd' = p) /\
    (sym_right nd' = sym_right nd \/ sym_right nd = NULL /\ sym_right nd' = p).
Proof.
  intros (_ & _ & Hsl & _ & Hsl' & Hload & Hold & _) Ha.
  destruct (Hold a nd Ha) as (nd' & Ha' & Hh & Hn). exists nd'.
  split; [exact Ha'|]. split; [exact Hn|]. split; [exact Hh|]. split.
  - destruct (decide (SlotLeft a = sl)) as [<-|Hne].
    + right. simpl in Hsl, Hsl'. rewrite Ha in Hsl. rewrite Ha' in Hsl'.
      simpl in *. split; congruence.
    + left. specialize (Hload (SlotLeft a) (sym_left nd) Hne).
      simpl in Hload. rewrite Ha, Ha' in Hload. simpl in Hload.
      specialize (Hload eq_refl). congruence.
  - destruct (decide (SlotRight a = sl)) as [<-|Hne].
    + right. simpl in Hsl, Hsl'. rewrite Ha in Hsl. rewrite Ha' in Hsl'.
      simpl in *. split; congruence.
    + left. specialize (Hload (SlotRight a) (sym_right nd) Hne).
      simpl in Hload. rewrite Ha, Ha' in Hload. simpl in Hload.
      specialize (Hload eq_refl). congruence.
Qed.

(** X2.  [_jl_symbol] never changes the name or the hash of a symbol that
    is in the table, and a child pointer changes only from NULL to the
    node just published. *)
Theorem published_symbols_immutable {R : Runtime} st str len h st' a nd :
  wf st -> valid_buf str len -> memchr0 (bytes_of str len) = false ->
  _jl_symbol st str len = Ret h st' ->
  heap st !! a = Some nd ->
  exists nd', heap st' !! a = Some nd' /\
    sym_name nd' = sym_name nd /\ sym_hash nd' = sym_hash nd /\
    (sym_left nd' = sym_left nd \/ sym_left nd = NULL /\ sym_left nd' = h) /\
    (sym_right nd' = sym_right nd \/ sym_right nd = NULL /\ sym_right nd' = h).
Proof.
  intros Hwf Hv Hnul Hr Ha. revert Hr. unfold _jl_symbol.
  destruct (len >? MAX_SYM_LEN) eqn:E; [discriminate|].
  destruct (lookup_total st str len Hwf) as (node & sl & Hl). rewrite Hl.
  destruct (decide (node = NULL)) as [->|Hnode].
  - pose proof Hl as Hres. unfold symtab_lookup in Hres.
    apply symtab_walk_result in Hres as [Hsl _].
    rewrite _jl_symbol_locked_miss by exact Hsl. intros [= <- <-].
    destruct (publish_spec st sl str len Hwf Hv Hnul ltac:(lia) Hl)
      as (_ & _ & _ & _ & _ & _ & Hatt).
    exact (attached_children _ _ _ _ _ a nd Hatt Ha).
  - intros [= <- <-]. exists nd. auto 6.
Qed.

Lemma published_symbols_immutable_witness :
  exists nd', heap demo_state2 !! 8 = Some nd' /\
    sym_name nd' = bytes "hello" /\
    sym_hash nd' = @hash_symbol demo_runtime (bytes "hello") 5 /\
    (sym_left nd' = NULL \/ NULL = NULL /\ sym_left nd' = 40) /\
    (sym_right nd' = NULL \/ NULL = NULL /\ sym_right nd' = 40).
Proof.
  apply (@published_symbols_immutable demo_runtime demo_state (bytes "world") 5 40
           demo_state2 8
           {| sym_left := NULL; sym_right := NULL;
              sym_hash := @hash_symbol demo_runtime (bytes "hello") 5;
              sym_name := bytes "hello" |}).
  - apply (@reachable_wf demo_runtime [bytes "hello"]), demo_state_reachable.
  - unfold valid_buf. simpl. lia.
  - reflexivity.
  - vm_compute. reflexivity.
  - vm_compute. reflexivity.
Defined.

(** X3.  In a reachable state the table holds exactly the names that were
    interned, each under one handle. *)
Theorem table_holds_interned_names {R : Runtime} log st :
  reachable log st ->
  (forall n, n ∈ log <-> exists a, jl_symbol_name st a = Some n) /\
  (forall a b n, jl_symbol_name st a = Some n -> jl_symbol_name st b = Some n -> a = b).
Proof.
  intros Hreach. split.
  - intros n. split; [|intros [a Ha]; now apply (reachable_names log st a)].
    revert n. induction Hreach as [|log st str len sym st' Hreach IH Hv Hnul Hret|log st ctr _ IH];
      intros n Hn.
    + now apply elem_of_nil in Hn.
    + pose proof (_jl_symbol_Ret_len _ _ _ _ _ Hret) as Hlen.
      destruct (_jl_symbol_spec st str len (reachable_wf _ _ Hreach) Hv Hnul Hlen)
        as (s & st1 & Hr & Hlat & _ & Hname & _).
      assert (s = sym /\ st1 = st') as [-> ->] by (split; congruence).
      apply elem_of_cons in Hn as [->|Hn]; [eauto|].
      destruct (IH n Hn) as [a Ha]. exists a. now apply (later_name st st').
    + destruct (IH n Hn) as [a Ha]. exists a. exact Ha.
  - intros a b n. apply wf_unique. now apply (reachable_wf log).
Qed.

Lemma table_holds_interned_names_witness :
  (forall n, n ∈ [bytes "hello"] <-> exists a, jl_symbol_name demo_state a = Some n) /\
  (forall a b n,
     jl_symbol_name demo_state a = Some n -> jl_symbol_name demo_state b = Some n -> a = b).
Proof.
  apply (@table_holds_interned_names demo_runtime [bytes "hello"] demo_state).
  apply demo_state_reachable.
Defined.

(** * Further properties of the table *)

(** ** The root and the child pointers *)



Lemma demo_state2_eq :
  @_jl_symbol demo_runtime demo_state (bytes "world") 5 = Ret 40 demo_state2.
Proof. vm_compute. reflexivity. Qed.

Lemma demo_state2_reachable :
  @reachable demo_runtime [bytes "world"; bytes "hello"] demo_state2.
Proof.
  apply (@reach_intern demo_runtime [bytes "hello"] demo_state (bytes "world") 5 40 demo_state2).
  - apply demo_state_reachable.
  - unfold valid_buf. simpl. lia.
  - reflexivity.
  - apply demo_state2_eq.
Qed.



(** The two ways [_jl_symbol] returns: the state it was given, or that state
    with the new node published in the slot where the lookup ended. *)
Lemma _jl_symbol_cases {R : Runtime} st str len h st' :
  wf st -> valid_buf str len -> memchr0 (bytes_of str len) = false ->
  _jl_symbol st str len = Ret h st' ->
  (st' = st /\ jl_symbol_name st h = Some (bytes_of str len)) \/
  (exists sl,
     symtab_lookup st SlotRoot str len = Some (NULL, sl) /\ h = perm_next st /\
     st' = uv_mutex_unlock (store sl h (snd (mk_symbol str len (uv_mutex_lock st)))) /\
     attached st st' sl h
       {| sym_left := NULL; sym_right := NULL;
          sym_hash := hash_symbol str len; sym_name := bytes_of str len |}).
Proof.
  intros Hwf Hv Hnul. unfold _jl_symbol.
  destruct (len >? MAX_SYM_LEN) eqn:E; [discriminate|].
  destruct (lookup_total st str len Hwf) as (node & sl & Hl). rewrite Hl.
  destruct (decide (node = NULL)) as [->|Hnode].
  - pose proof Hl as Hres. unfold symtab_lookup in Hres.
    apply symtab_walk_result in Hres as [Hsl _].
    rewrite _jl_symbol_locked_miss by exact Hsl. intros [= <- <-].
    destruct (publish_spec st sl str len Hwf Hv Hnul ltac:(lia) Hl)
      as (_ & _ & _ & _ & _ & _ & Hatt).
    right. exists sl. auto.
  - intros [= <- <-]. left. split; [reflexivity|].
    now apply (lookup_found st str len node sl).
Qed.

Lemma wf_root_nonnull {R : Runtime} st a nd :
  wf st -> heap st !! a = Some nd -> symtab st <> NULL.
Proof.
  intros Hwf Ha Hroot. destruct (wf_find st Hwf a nd Ha) as [sl Hl].
  pose proof (wf_dom st Hwf a nd Ha) as Hdom.
  unfold symtab_lookup in Hl. simpl in Hl. rewrite Hroot in Hl. simpl in Hl.
  destruct (decide (NULL = NULL)); [|contradiction].
  injection Hl as Hl _. unfold NULL in Hl. lia.
Qed.

Lemma wf_root_null_miss {R : Runtime} st str len node sl :
  symtab st = NULL -> symtab_lookup st SlotRoot str len = Some (node, sl) ->
  node = NULL /\ sl = SlotRoot.
Proof.
  intros Hroot Hl. unfold symtab_lookup in Hl. simpl in Hl.
  rewrite Hroot in Hl. simpl in Hl.
  destruct (decide (NULL = NULL)); [|contradiction]. now injection Hl.
Qed.

(** Every interned name has its node. *)
Lemma reachable_has_name {R : Runtime} log st n :
  reachable log st -> n ∈ log -> exists a, jl_symbol_name st a = Some n.
Proof.
  intros Hreach. revert n.
  induction Hreach as [|log st str len sym st' Hreach IH Hv Hnul Hret|log st ctr _ IH];
    intros n Hn.
  - now apply elem_of_nil in Hn.
  - pose proof (_jl_symbol_Ret_len _ _ _ _ _ Hret) as Hlen.
    destruct (_jl_symbol_spec st str len (reachable_wf _ _ Hreach) Hv Hnul Hlen)
      as (s & st1 & Hr & Hlat & _ & Hname & _).
    assert (s = sym /\ st1 = st') as [-> ->] by (split; congruence).
    apply elem_of_cons in Hn as [->|Hn]; [eauto|].
    destruct (IH n Hn) as [a Ha]. exists a. now apply (later_name st st').
  - destruct (IH n Hn) as [a Ha]. exists a. exact Ha.
Qed.

(** X5.  The root is NULL exactly while nothing has been interned; the
    first symbol interned becomes the root, and from then on
    [_jl_symbol] never changes the root. *)
Theorem root_is_first_symbol {R : Runtime} log st str len h st' :
  reachable log st -> valid_buf str len -> memchr0 (bytes_of str len) = false ->
  _jl_symbol st str len = Ret h st' ->
  (jl_get_root_symbol st = NULL <-> log = []) /\
  (jl_get_root_symbol st = NULL -> jl_get_root_symbol st' = h) /\
  (jl_get_root_symbol st <> NULL ->
     jl_get_root_symbol st' = jl_get_root_symbol st).
Proof.
  intros Hreach Hv Hnul Hret. pose proof (reachable_wf log st Hreach) as Hwf.
  unfold jl_get_root_symbol. split; [|split].
  - split.
    + intros Hroot. destruct log as [|n log]; [reflexivity|]. exfalso.
      destruct (reachable_has_name (n :: log) st n Hreach) as [a Ha];
        [apply list_elem_of_here|].
      unfold jl_symbol_name in Ha.
      destruct (heap st !! a) as [nd|] eqn:Hnd; [|discriminate].
      now apply (wf_root_nonnull st a nd).
    + intros ->. destruct (decide (symtab st = NULL)) as [|Hroot]; [assumption|].
      exfalso. destruct (wf_walk st Hwf 0 [] 0) as [r Hr].
      simpl in Hr. destruct (decide (symtab st = NULL)); [contradiction|].
      destruct (heap st !! symtab st) as [nd|] eqn:Hnd; [|discriminate].
      assert (sym_name nd ∈ ([] : list (list byte))) as Hin
        by (apply (reachable_names [] st (symtab st)); [exact Hreach|];
            unfold jl_symbol_name; now rewrite Hnd).
      now apply elem_of_nil in Hin.
  - intros Hroot.
    destruct (_jl_symbol_cases st str len h st' Hwf Hv Hnul Hret)
      as [[-> Hname] | (sl & Hl & _ & _ & Hatt)].
    + exfalso. unfold jl_symbol_name in Hname.
      destruct (heap st !! h) as [nd|] eqn:Hnd; [|discriminate].
      now apply (wf_root_nonnull st h nd).
    + destruct (wf_root_null_miss st str len NULL sl Hroot Hl) as [_ ->].
      destruct Hatt as (_ & _ & _ & _ & Hsl' & _). simpl in Hsl'. congruence.
  - intros Hroot.
    destruct (_jl_symbol_cases st str len h st' Hwf Hv Hnul Hret)
      as [[-> _] | (sl & Hl & _ & _ & Hatt)]; [reflexivity|].
    destruct Hatt as (_ & _ & Hsl & _ & _ & Hload & _).
    assert (SlotRoot <> sl) as Hne by (intros <-; simpl in Hsl; congruence).
    specialize (Hload SlotRoot (symtab st) Hne eq_refl). simpl in Hload. congruence.
Qed.

Lemma root_is_first_symbol_witness :
  (jl_get_root_symbol demo_state = NULL <-> [bytes "hello"] = []) /\
  (jl_get_root_symbol demo_state = NULL -> jl_get_root_symbol demo_state2 = 40) /\
  (jl_get_root_symbol demo_state <> NULL ->
     jl_get_root_symbol demo_state2 = jl_get_root_symbol demo_state).
Proof.
  apply (@root_is_first_symbol demo_runtime [bytes "hello"] demo_state (bytes "world") 5 40
           demo_state2).
  - apply demo_state_reachable.
  - unfold valid_buf. simpl. lia.
  - reflexivity.
  - apply demo_state2_eq.
Defined.

Lemma reachable_points_in {R : Runtime} log st :
  reachable log st ->
  points_in st (symtab st) /\
  (forall a nd, heap st !! a = Some nd ->
     points_in st (sym_left nd) /\ points_in st (sym_right nd)).
Proof.
  unfold points_in.
  induction 1 as [|log st str len sym st' Hreach IH Hv Hnul Hret|log st ctr _ IH].
  - split; [now left|]. intros a nd Ha. unfold init_state in Ha. cbn [heap] in Ha.
    now rewrite lookup_empty in Ha.
  - destruct IH as [IHroot IHch].
    destruct (_jl_symbol_cases st str len sym st' (reachable_wf _ _ Hreach) Hv Hnul Hret)
      as [[-> _] | (sl & _ & _ & _ & Hatt)]; [now split|].
    pose proof Hatt as
      (_ & _ & Hsl & (nd' & Hnd' & _ & _ & Hl' & Hr') & Hsl' & Hload & Hold & Hdom & _).
    assert (forall p, p = NULL \/ is_Some (heap st !! p) ->
                      p = NULL \/ is_Some (heap st' !! p)) as Hkeep.
    { intros p [->|[x Hx]]; [now left|]. right.
      destruct (Hold p x Hx) as (x' & Hx' & _). eauto. }
    split.
    + destruct (decide (SlotRoot = sl)) as [<-|Hne].
      * right. simpl in Hsl'. injection Hsl' as ->. eauto.
      * specialize (Hload SlotRoot (symtab st) Hne eq_refl). simpl in Hload.
        injection Hload as ->. auto.
    + intros a nd Ha. destruct (Hdom a nd Ha) as [->|[nd0 H0]].
      * assert (nd = nd') as -> by congruence. rewrite Hl', Hr'. split; now left.
      * destruct (attached_children st st' sl sym _ a nd0 Hatt H0)
          as (nd1 & H1 & _ & _ & HL & HR).
        assert (nd1 = nd) as -> by congruence.
        destruct (IHch a nd0 H0) as [IHl IHr]. split.
        -- destruct HL as [-> | [_ ->]]; [auto | right; eauto].
        -- destruct HR as [-> | [_ ->]]; [auto | right; eauto].
  - exact IH.
Qed.

Lemma reachable_load_in {R : Runtime} log st sl v :
  reachable log st -> load st sl = Some v -> points_in st v.
Proof.
  intros Hreach Hl. destruct (reachable_points_in log st Hreach) as [Hroot Hch].
  destruct sl as [|a|a]; simpl in Hl.
  - now injection Hl as <-.
  - destruct (heap st !! a) as [nd|] eqn:Ha; [|discriminate].
    injection Hl as <-. now apply (Hch a nd).
  - destruct (heap st !! a) as [nd|] eqn:Ha; [|discriminate].
    injection Hl as <-. now apply (Hch a nd).
Qed.

(** X6.  In a reachable state every pointer a lookup can load, the root
    and the two child pointers of every symbol, is NULL or a symbol of the
    table: a lookup never follows a pointer out of the permanent heap. *)
Theorem no_dangling_pointers {R : Runtime} log st :
  reachable log st ->
  points_in st (jl_get_root_symbol st) /\
  (forall a nd, heap st !! a = Some nd ->
     points_in st (sym_left nd) /\ points_in st (sym_right nd)) /\
  (forall sl v, load st sl = Some v -> points_in st v).
Proof.
  intros Hreach. destruct (reachable_points_in log st Hreach) as [Hroot Hch].
  split; [exact Hroot|]. split; [exact Hch|].
  intros sl v. now apply (reachable_load_in log).
Qed.

Lemma no_dangling_pointers_witness :
  points_in demo_state2 (jl_get_root_symbol demo_state2) /\
  (forall a nd, heap demo_state2 !! a = Some nd ->
     points_in demo_state2 (sym_left nd) /\ points_in demo_state2 (sym_right nd)) /\
  (forall sl v, load demo_state2 sl = Some v -> points_in demo_state2 v).
Proof.
  apply (@no_dangling_pointers demo_runtime [bytes "world"; bytes "hello"] demo_state2).
  apply demo_state2_reachable.
Defined.

(** ** What interning costs *)

(** X7.  The number of symbols in a reachable table is the number of
    distinct names interned so far. *)
Theorem table_size_counts_names {R : Runtime} log st :
  reachable log st -> size (heap st) = length (remove_dups log).
Proof.
  induction 1 as [|log st str len sym st' Hreach IH Hv Hnul Hret|log st ctr _ IH].
  - unfold init_state. cbn [heap]. now rewrite map_size_empty.
  - pose proof (reachable_wf _ _ Hreach) as Hwf.
    cbn [remove_dups].
    destruct (_jl_symbol_cases st str len sym st' Hwf Hv Hnul Hret)
      as [[-> Hname] | (sl & Hl & _ & _ & Hatt)].
    + pose proof (reachable_names log st sym _ Hreach Hname) as Hin.
      destruct (decide_rel elem_of (bytes_of str len) log); [exact IH | contradiction].
    + destruct (decide_rel elem_of (bytes_of str len) log) as [Hin|Hnin].
      * exfalso. destruct (reachable_has_name log st _ Hreach Hin) as [a Ha].
        now apply (lookup_miss st str len sl a).
      * destruct Hatt as (_ & _ & _ & _ & _ & _ & _ & _ & Hsize).
        rewrite Hsize, IH. reflexivity.
  - exact IH.
Qed.

Lemma table_size_counts_names_witness :
  size (heap demo_state2) = length (remove_dups [bytes "world"; bytes "hello"]).
Proof.
  apply (@table_size_counts_names demo_runtime [bytes "world"; bytes "hello"] demo_state2).
  apply demo_state2_reachable.
Defined.

(** X8.  [_jl_symbol] on a name that is in the table returns the state it
    was given: no lock, no allocation.  On a new name it takes the lock
    once, allocates once, [symbol_nbytes len] bytes, and the node at the
    handle returned has NULL children, the hash of the name and the name's
    bytes. *)
Theorem intern_allocates_once {R : Runtime} st str len :
  wf st -> valid_buf str len -> memchr0 (bytes_of str len) = false ->
  len <= MAX_SYM_LEN ->
  exists h st',
    _jl_symbol st str len = Ret h st' /\
    ((exists a, jl_symbol_name st a = Some (bytes_of str len)) -> st' = st) /\
    ((forall a, jl_symbol_name st a <> Some (bytes_of str len)) ->
       h = perm_next st /\
       perm_next st' = perm_next st + symbol_nbytes len /\
       size (heap st') = S (size (heap st)) /\
       heap st' !! h = Some {| sym_left := NULL; sym_right := NULL;
                               sym_hash := hash_symbol str len;
                               sym_name := bytes_of str len |} /\
       trace st' = EvUnlock :: EvAlloc (symbol_nbytes len) :: EvLock :: trace st).
Proof.
  intros Hwf Hv Hnul Hlen.
  destruct (_jl_symbol_spec st str len Hwf Hv Hnul Hlen) as (h & st' & Hr & _).
  exists h, st'. split; [exact Hr|].
  destruct (_jl_symbol_cases st str len h st' Hwf Hv Hnul Hr)
    as [[-> Hname] | (sl & Hl & Hh & Hst & Hatt)].
  - split; [reflexivity|]. intros Hno. exfalso. now apply (Hno h).
  - split.
    + intros [a Ha]. exfalso. now apply (lookup_miss st str len sl a).
    + intros _. split; [exact Hh|].
      destruct Hatt as (_ & _ & _ & (nd' & Hnd' & Hh' & Hn' & Hl' & Hr') & _ & _ & _ & _ & Hsize).
      split; [rewrite Hst; destruct sl; reflexivity|].
      split; [exact Hsize|]. split; [|rewrite Hst; destruct sl; reflexivity].
      rewrite Hnd'. f_equal. destruct nd'. simpl in *. congruence.
Qed.

Lemma intern_allocates_once_witness :
  exists h st',
    @_jl_symbol demo_runtime demo_state (bytes "world") 5 = Ret h st' /\
    ((exists a, jl_symbol_name demo_state a = Some (bytes_of (bytes "world") 5)) ->
       st' = demo_state) /\
    ((forall a, jl_symbol_name demo_state a <> Some (bytes_of (bytes "world") 5)) ->
       h = perm_next demo_state /\
       perm_next st' = perm_next demo_state + @symbol_nbytes demo_runtime 5 /\
       size (heap st') = S (size (heap demo_state)) /\
       heap st' !! h = Some {| sym_left := NULL; sym_right := NULL;
                               sym_hash := @hash_symbol demo_runtime (bytes "world") 5;
                               sym_name := bytes_of (bytes "world") 5 |} /\
       trace st' = EvUnlock :: EvAlloc (@symbol_nbytes demo_runtime 5) :: EvLock
                     :: trace demo_state).
Proof.
  apply (@intern_allocates_once demo_runtime demo_state (bytes "world") 5).
  - apply (@reachable_wf demo_runtime _ _ demo_state_reachable).
  - unfold valid_buf. simpl. lia.
  - reflexivity.
  - vm_compute. discriminate.
Defined.

(** ** Generated names *)

Lemma digit_char_not_hash (d : Z) : 0 <= d < 10 -> digit_char d <> hash_sign.
Proof.
  intros Hd.
  assert (d = 0 \/ d = 1 \/ d = 2 \/ d = 3 \/ d = 4 \/
          d = 5 \/ d = 6 \/ d = 7 \/ d = 8 \/ d = 9) as H by lia.
  repeat (destruct H as [-> | H]; [discriminate|]). subst. discriminate.
Qed.

Lemma uint2str_loop_no_hash room : forall num acc,
  hash_sign ∉ acc -> hash_sign ∉ uint2str_loop room num 10 acc.
Proof.
  induction room as [|room IH]; intros num acc Hacc; [exact Hacc|].
  cbn [uint2str_loop].
  assert (hash_sign ∉ digit_char (num mod 10) :: acc) as Hacc'.
  { intros Hin. apply elem_of_cons in Hin as [Heq|Hin]; [|contradiction].
    symmetry in Heq. revert Heq. apply digit_char_not_hash, Z.mod_pos_bound. lia. }
  destruct (num / 10 =? 0); [exact Hacc' | now apply IH].
Qed.

(** No ['#'] among the digits. *)
Lemma uint2str_no_hash num : hash_sign ∉ uint2str 14 num 10.
Proof. unfold uint2str. apply uint2str_loop_no_hash, not_elem_of_nil. Qed.

Lemma uint2str_inj c1 c2 :
  0 <= c1 < 2 ^ 32 -> 0 <= c2 < 2 ^ 32 ->
  uint2str 14 c1 10 = uint2str 14 c2 10 -> c1 = c2.
Proof.
  intros H1 H2 E.
  rewrite <- (uint2str_decimal c1), <- (uint2str_decimal c2) by lia. now rewrite E.
Qed.

Lemma gensym_name_inj c1 c2 :
  0 <= c1 < 2 ^ 32 -> 0 <= c2 < 2 ^ 32 -> gensym_name c1 = gensym_name c2 -> c1 = c2.
Proof.
  intros H1 H2 E. unfold gensym_name in E. injection E as E. now apply uint2str_inj.
Qed.

(** The last ['#'] of a tagged name separates the tag from the digits. *)
Lemma hash_split_inj (t1 t2 d1 d2 : list byte) :
  hash_sign ∉ d1 -> hash_sign ∉ d2 ->
  t1 ++ hash_sign :: d1 = t2 ++ hash_sign :: d2 -> t1 = t2 /\ d1 = d2.
Proof.
  intros Hd1 Hd2. revert t2.
  induction t1 as [|x t1 IH]; intros [|y t2] E; simpl in E.
  - injection E as E. auto.
  - injection E as _ E. exfalso. apply Hd1. rewrite E. apply elem_of_app. right.
    apply list_elem_of_here.
  - injection E as _ E. exfalso. apply Hd2. rewrite <- E. apply elem_of_app. right.
    apply list_elem_of_here.
  - injection E as -> E. destruct (IH t2 E) as [-> ->]. auto.
Qed.

Lemma tagged_name_inj t1 c1 t2 c2 :
  0 <= c1 < 2 ^ 32 -> 0 <= c2 < 2 ^ 32 ->
  tagged_name t1 c1 = tagged_name t2 c2 -> t1 = t2 /\ c1 = c2.
Proof.
  intros H1 H2 E. unfold tagged_name in E. injection E as E.
  apply hash_split_inj in E as [-> E]; auto using uint2str_no_hash.
  split; [reflexivity | now apply uint2str_inj].
Qed.

Lemma tagged_name_not_gensym_name t c1 c2 : tagged_name t c1 <> gensym_name c2.
Proof.
  unfold tagged_name, gensym_name. intros E. injection E as E.
  apply (uint2str_no_hash c2). rewrite <- E. apply elem_of_app. right.
  apply list_elem_of_here.
Qed.

(** What a returning [jl_tagged_gensym] has done, with or without the
    sentinel length. *)
Lemma jl_tagged_gensym_Ret {R : Runtime} st tag len h st' :
  wf st -> (len <> SIZE_MAX -> valid_buf tag len) ->
  jl_tagged_gensym st tag len = Ret h st' ->
  exists t,
    later st st' /\ jl_symbol_name st' h = Some (tagged_name t (gs_ctr st)) /\
    gs_ctr st' = to_uint32_t (gs_ctr st + 1).
Proof.
  intros Hwf Hv. unfold jl_tagged_gensym.
  assert (forall s l, valid_buf s l -> memchr0 (bytes_of s l) = false ->
            jl_tagged_gensym_name st s l = Ret h st' ->
            exists t, later st st' /\
              jl_symbol_name st' h = Some (tagged_name t (gs_ctr st)) /\
              gs_ctr st' = to_uint32_t (gs_ctr st + 1)) as Hname.
  { intros s l Hvs Hnul Hr.
    destruct (Z_le_gt_dec (l + 17) MAX_SYM_LEN) as [Hfit|Hlong].
    - destruct (jl_tagged_gensym_name_spec st s l Hwf Hvs Hnul Hfit)
        as (h' & st'' & Hr' & Hlat & _ & Hn & Hc).
      assert (h' = h /\ st'' = st') as [-> ->] by (split; congruence). eauto.
    - rewrite jl_tagged_gensym_name_too_long in Hr; [discriminate | apply Hvs | lia]. }
  destruct (len =? SIZE_MAX) eqn:E.
  - apply Hname; auto using strlen_valid, strlen_no_nul.
  - destruct (memchr0 (bytes_of tag len)) eqn:Hnul; [discriminate|].
    apply Hname; auto. apply Hv. lia.
Qed.

Lemma to_uint32_t_succ_ne c : 0 <= c < 2 ^ 32 -> to_uint32_t (c + 1) <> c.
Proof.
  intros Hc. unfold to_uint32_t.
  destruct (Z.eq_dec c (2 ^ 32 - 1)) as [->|Hne]; [discriminate|].
  rewrite Z.mod_small; lia.
Qed.

(** X9.  Two calls of [jl_tagged_gensym] in a row never return the same
    symbol, whatever the tags, and the symbol of a tagged call is never the
    symbol of a [jl_gensym] call, made before or after it. *)
Theorem tagged_gensym_fresh {R : Runtime} st tag len h1 st1 :
  wf st -> (len <> SIZE_MAX -> valid_buf tag len) ->
  jl_tagged_gensym st tag len = Ret h1 st1 ->
  (forall tag' len' h2 st2,
     (len' <> SIZE_MAX -> valid_buf tag' len') ->
     jl_tagged_gensym st1 tag' len' = Ret h2 st2 -> h1 <> h2) /\
  (forall st2 h3 st3, later st1 st2 -> jl_gensym st2 = Ret h3 st3 -> h1 <> h3) /\
  (forall st0 h0 st0', wf st0 -> jl_gensym st0 = Ret h0 st0' -> later st0' st -> h1 <> h0).
Proof.
  intros Hwf Hv Hr.
  destruct (jl_tagged_gensym_Ret st tag len h1 st1 Hwf Hv Hr)
    as (t & Hlat1 & Hn1 & Hc1).
  pose proof Hlat1 as [Hwf1 _].
  pose proof (wf_ctr st Hwf) as Hc. pose proof (wf_ctr st1 Hwf1) as Hc'.
  split; [|split].
  - intros tag' len' h2 st2 Hv' Hr' <-.
    destruct (jl_tagged_gensym_Ret st1 tag' len' h1 st2 Hwf1 Hv' Hr') as (t' & Hlat & Hn2 & _).
    pose proof (later_name st1 st2 h1 _ Hlat Hn1) as Hn1'.
    assert (tagged_name t (gs_ctr st) = tagged_name t' (gs_ctr st1)) as E by congruence.
    apply tagged_name_inj in E as [_ E]; auto.
    rewrite Hc1 in E. symmetry in E. revert E. now apply to_uint32_t_succ_ne.
  - intros st2 h3 st3 Hlat Hr' <-. pose proof Hlat as [Hwf2 _].
    destruct (jl_gensym_spec st2 Hwf2) as (h' & st' & Hr2 & Hlat2 & _ & Hn2 & _).
    assert (h' = h1 /\ st' = st3) as [-> ->] by (split; congruence).
    pose proof (later_name st2 st3 h1 _ Hlat2 (later_name st1 st2 h1 _ Hlat Hn1)) as Hn1'.
    apply (tagged_name_not_gensym_name t (gs_ctr st) (gs_ctr st2)). congruence.
  - intros st0 h0 st0' Hwf0 Hr0 Hlat0 <-.
    destruct (jl_gensym_spec st0 Hwf0) as (h' & st' & Hr2 & _ & _ & Hn0 & _).
    assert (h' = h1 /\ st' = st0') as [-> ->] by (split; congruence).
    pose proof (later_name st st1 h1 _ Hlat1 (later_name st0' st h1 _ Hlat0 Hn0)) as Hn0'.
    apply (tagged_name_not_gensym_name t (gs_ctr st) (gs_ctr st0)). congruence.
Qed.

Lemma demo_tagged_state_eq :
  @jl_tagged_gensym demo_runtime init_state (bytes "foo") 3 = Ret 8 demo_tagged_state.
Proof. vm_compute. reflexivity. Qed.

Lemma tagged_gensym_fresh_witness :
  (forall tag' len' h2 st2,
     (len' <> SIZE_MAX -> valid_buf tag' len') ->
     @jl_tagged_gensym demo_runtime demo_tagged_state tag' len' = Ret h2 st2 -> 8 <> h2) /\
  (forall st2 h3 st3,
     @later demo_runtime demo_tagged_state st2 ->
     @jl_gensym demo_runtime st2 = Ret h3 st3 -> 8 <> h3) /\
  (forall st0 h0 st0',
     @wf demo_runtime st0 -> @jl_gensym demo_runtime st0 = Ret h0 st0' ->
     @later demo_runtime st0' init_state -> 8 <> h0).
Proof.
  apply (@tagged_gensym_fresh demo_runtime init_state (bytes "foo") 3).
  - apply demo_wf_init.
  - intros _. unfold valid_buf. simpl. lia.
  - apply demo_tagged_state_eq.
Defined.

Lemma gensym_run_spec {R : Runtime} n : forall st,
  wf st -> gs_ctr st + Z.of_nat n <= 2 ^ 32 ->
  later st (snd (gensym_run n st)) /\
  length (fst (gensym_run n st)) = n /\
  (forall i h, fst (gensym_run n st) !! i = Some h ->
     jl_symbol_name (snd (gensym_run n st)) h
     = Some (gensym_name (gs_ctr st + Z.of_nat i))).
Proof.
  induction n as [|n IH]; intros st Hwf Hn.
  - simpl. split; [now apply later_refl|]. split; [reflexivity|]. intros i h [=].
  - destruct (jl_gensym_spec st Hwf) as (h0 & st1 & Hr & Hlat & _ & Hname & Hctr).
    pose proof Hlat as [Hwf1 _]. pose proof (wf_ctr st Hwf) as Hc.
    cbn [gensym_run]. rewrite Hr.
    destruct (gensym_run n st1) as [hs stF] eqn:Hrun. cbn [fst snd].
    assert (later st1 stF /\ length hs = n /\
            forall i h, hs !! i = Some h ->
              jl_symbol_name stF h = Some (gensym_name (gs_ctr st + 1 + Z.of_nat i)))
      as (HlatF & Hlen & Hnames).
    { destruct n as [|n].
      - simpl in Hrun. injection Hrun as <- <-.
        split; [now apply later_refl|]. split; [reflexivity|]. intros i h [=].
      - assert (gs_ctr st1 = gs_ctr st + 1) as Hctr'
          by (rewrite Hctr; unfold to_uint32_t; apply Z.mod_small; lia).
        destruct (IH st1 Hwf1 ltac:(lia)) as (H1 & H2 & H3).
        rewrite Hrun in H1, H2, H3. cbn [fst snd] in H1, H2, H3.
        rewrite Hctr' in H3. auto. }
    split; [now apply (later_trans st st1 stF)|]. split; [simpl; lia|].
    intros [|i] h Hi; simpl in Hi.
    + injection Hi as <-. rewrite Z.add_0_r. now apply (later_name st1 stF).
    + rewrite (Hnames i h Hi). do 2 f_equal. lia.
Qed.

(** X10.  As long as the counter does not wrap, [n] calls of [jl_gensym]
    in a row all return, and return [n] different symbols. *)
Theorem gensym_handles_distinct {R : Runtime} n st :
  wf st -> gs_ctr st + Z.of_nat n <= 2 ^ 32 ->
  length (fst (gensym_run n st)) = n /\ NoDup (fst (gensym_run n st)).
Proof.
  intros Hwf Hn. destruct (gensym_run_spec n st Hwf Hn) as (_ & Hlen & Hnames).
  split; [exact Hlen|]. apply NoDup_alt. intros i j h Hi Hj.
  pose proof (lookup_lt_Some _ _ _ Hi) as Hi'. pose proof (lookup_lt_Some _ _ _ Hj) as Hj'.
  pose proof (wf_ctr st Hwf) as Hc.
  assert (gs_ctr st + Z.of_nat i = gs_ctr st + Z.of_nat j) as E.
  { apply gensym_name_inj; [lia | lia |].
    pose proof (Hnames i h Hi). pose proof (Hnames j h Hj). congruence. }
  lia.
Qed.

Lemma gensym_handles_distinct_witness :
  length (fst (@gensym_run demo_runtime 3 demo_state)) = 3%nat /\
  NoDup (fst (@gensym_run demo_runtime 3 demo_state)).
Proof.
  apply (@gensym_handles_distinct demo_runtime 3 demo_state).
  - apply (@reachable_wf demo_runtime _ _ demo_state_reachable).
  - vm_compute. discriminate.
Defined.

(** X11.  The counter is the only source of freshness: when the counter is
    set back to the value it had before a [jl_gensym] call, the next
    [jl_gensym] returns the symbol of that call again, found in the table
    without lock or allocation. *)
Theorem gensym_repeats_after_restore {R : Runtime} st :
  wf st ->
  exists h st1 st2,
    jl_gensym st = Ret h st1 /\
    jl_gensym (jl_set_gs_ctr (jl_get_gs_ctr st) st1) = Ret h st2 /\
    heap st2 = heap st1 /\ perm_next st2 = perm_next st1 /\ trace st2 = trace st1.
Proof.
  intros Hwf.
  destruct (jl_gensym_spec st Hwf) as (h & st1 & Hr & [Hwf1 _] & _ & Hname & _).
  pose proof (wf_ctr st Hwf) as Hc. unfold jl_get_gs_ctr.
  set (stR := jl_set_gs_ctr (gs_ctr st) st1).
  assert (gs_ctr stR = gs_ctr st) as HcR
    by (simpl; unfold to_uint32_t; apply Z.mod_small; lia).
  set (stQ := jl_set_gs_ctr (gs_ctr st + 1) stR).
  assert (wf stQ) as HwfQ by (unfold stQ, stR; now do 2 apply jl_set_gs_ctr_wf).
  destruct (gensym_name_fits (gs_ctr st)) as (Hv & Hnul & Hlen).
  destruct (_jl_symbol_spec stQ _ _ HwfQ Hv Hnul Hlen)
    as (h' & st2 & Hr2 & _ & _ & Hname2 & _ & _ & Hfast & _).
  rewrite bytes_of_all in Hname2, Hfast.
  assert (jl_symbol_name stQ h = Some (gensym_name (gs_ctr st))) as HnameQ by exact Hname.
  assert (st2 = stQ) as -> by (apply Hfast; eauto).
  assert (h' = h) as -> by now apply (wf_unique stQ h' h (gensym_name (gs_ctr st))).
  exists h, st1, stQ. split; [exact Hr|]. split; [|auto].
  change (jl_gensym stR = Ret h stQ). rewrite jl_gensym_eq, HcR. exact Hr2.
Qed.

Lemma gensym_repeats_after_restore_witness :
  exists h st1 st2,
    @jl_gensym demo_runtime demo_state = Ret h st1 /\
    @jl_gensym demo_runtime (jl_set_gs_ctr (jl_get_gs_ctr demo_state) st1) = Ret h st2 /\
    heap st2 = heap st1 /\ perm_next st2 = perm_next st1 /\ trace st2 = trace st1.
Proof.
  apply (@gensym_repeats_after_restore demo_runtime demo_state).
  apply (@reachable_wf demo_runtime _ _ demo_state_reachable).
Defined.

(** ** What is read of the arguments *)

Lemma strlen_app_nul (s rest : list byte) :
  memchr0 s = false -> strlen (s ++ x00 :: rest) = Z.of_nat (length s).
Proof.
  induction s as [|c s IH]; [reflexivity|].
  rewrite memchr0_cons, <- is_nul_false. intros [Hc Hs].
  cbn [app strlen length]. rewrite Hc, IH by exact Hs. lia.
Qed.

Lemma bytes_of_app (s rest : list byte) : bytes_of (s ++ rest) (Z.of_nat (length s)) = s.
Proof. unfold bytes_of. rewrite Nat2Z.id. apply take_app_length. Qed.

Lemma symtab_lookup_bytes {R : Runtime} st ptree str len :
  symtab_lookup st ptree (bytes_of str len) len = symtab_lookup st ptree str len.
Proof. unfold symtab_lookup, hash_symbol. now rewrite !bytes_of_idem. Qed.

Lemma mk_symbol_bytes {R : Runtime} st str len :
  mk_symbol (bytes_of str len) len st = mk_symbol str len st.
Proof. unfold mk_symbol, hash_symbol. now rewrite !bytes_of_idem. Qed.

(** [_jl_symbol] reads the first [len] bytes of its argument, no more. *)
Lemma _jl_symbol_bytes {R : Runtime} st str len :
  _jl_symbol st (bytes_of str len) len = _jl_symbol st str len.
Proof.
  assert (forall sl, _jl_symbol_locked st sl (bytes_of str len) len
                     = _jl_symbol_locked st sl str len) as Hlocked.
  { intros sl. unfold _jl_symbol_locked.
    now rewrite symtab_lookup_bytes, mk_symbol_bytes. }
  unfold _jl_symbol. rewrite symtab_lookup_bytes.
  destruct (len >? MAX_SYM_LEN); [reflexivity|].
  destruct (symtab_lookup st SlotRoot str len) as [[node sl]|]; [|reflexivity].
  destruct (decide (node = NULL)); [apply Hlocked | reflexivity].
Qed.

(** X12.  [jl_symbol] and [jl_symbol_lookup] stop at the first terminator:
    for a name [s] without one, whatever follows the terminator in the
    buffer changes neither the result nor the state.  [jl_symbol_n] with
    the length of [s] does what [jl_symbol] does, whatever follows the
    first [length s] bytes. *)
Theorem symbol_reads_name_only {R : Runtime} st s rest :
  memchr0 s = false ->
  jl_symbol st (s ++ x00 :: rest) = jl_symbol st s /\
  jl_symbol_lookup st (s ++ x00 :: rest) = jl_symbol_lookup st s /\
  jl_symbol_n st (s ++ rest) (Z.of_nat (length s)) = jl_symbol st s.
Proof.
  intros Hs. unfold jl_symbol, jl_symbol_lookup, jl_symbol_n.
  rewrite strlen_app_nul, (strlen_full s) by exact Hs.
  split; [|split].
  - rewrite <- (_jl_symbol_bytes st (s ++ x00 :: rest)), <- (_jl_symbol_bytes st s).
    now rewrite bytes_of_app, bytes_of_all.
  - rewrite <- (symtab_lookup_bytes st SlotRoot (s ++ x00 :: rest)),
      <- (symtab_lookup_bytes st SlotRoot s).
    now rewrite bytes_of_app, bytes_of_all.
  - rewrite bytes_of_app, Hs.
    rewrite <- (_jl_symbol_bytes st (s ++ rest)), <- (_jl_symbol_bytes st s).
    now rewrite bytes_of_app, bytes_of_all.
Qed.

Lemma symbol_reads_name_only_witness :
  @jl_symbol demo_runtime demo_state (bytes "world" ++ x00 :: bytes "junk")
  = @jl_symbol demo_runtime demo_state (bytes "world") /\
  @jl_symbol_lookup demo_runtime demo_state (bytes "world" ++ x00 :: bytes "junk")
  = @jl_symbol_lookup demo_runtime demo_state (bytes "world") /\
  @jl_symbol_n demo_runtime demo_state (bytes "world" ++ bytes "junk")
    (Z.of_nat (length (bytes "world")))
  = @jl_symbol demo_runtime demo_state (bytes "world").
Proof.
  apply (@symbol_reads_name_only demo_runtime demo_state (bytes "world") (bytes "junk")).
  reflexivity.
Defined.

(** ** What the table stores *)

Lemma reachable_log_len {R : Runtime} log st n :
  reachable log st -> n ∈ log -> Z.of_nat (length n) <= MAX_SYM_LEN.
Proof.
  induction 1 as [|log st str len sym st' Hreach IH Hv Hnul Hret|log st ctr _ IH];
    intros Hn.
  - now apply elem_of_nil in Hn.
  - apply elem_of_cons in Hn as [->|Hn]; [|auto].
    rewrite bytes_of_length by exact Hv. now apply (_jl_symbol_Ret_len st str len sym st').
  - auto.
Qed.

(** X13.  Every symbol stored in a reachable table is as [mk_symbol] made
    it: its name has no terminator inside, is one of the names interned and
    is at most [MAX_SYM_LEN] bytes long, its hash field is [hash_symbol] of
    that name, and its handle is not NULL. *)
Theorem stored_symbols_well_formed {R : Runtime} log st a nd :
  reachable log st -> heap st !! a = Some nd ->
  a <> NULL /\
  memchr0 (sym_name nd) = false /\
  sym_name nd ∈ log /\
  Z.of_nat (length (sym_name nd)) <= MAX_SYM_LEN /\
  sym_hash nd = hash_symbol (sym_name nd) (Z.of_nat (length (sym_name nd))) /\
  0 <= sym_hash nd < 2 ^ 64.
Proof.
  intros Hreach Ha. pose proof (reachable_wf log st Hreach) as Hwf.
  destruct (wf_node st Hwf a nd Ha) as [Hnul Hhash].
  pose proof (wf_dom st Hwf a nd Ha) as Hdom.
  assert (sym_name nd ∈ log) as Hin
    by (apply (reachable_names log st a); [exact Hreach|];
        unfold jl_symbol_name; now rewrite Ha).
  split; [unfold NULL; lia|]. split; [exact Hnul|]. split; [exact Hin|].
  split; [now apply (reachable_log_len log st)|]. split; [exact Hhash|].
  rewrite Hhash. apply hash_symbol_range.
Qed.

Lemma stored_symbols_well_formed_witness :
  40 <> NULL /\
  memchr0 (bytes "world") = false /\
  bytes "world" ∈ [bytes "world"; bytes "hello"] /\
  Z.of_nat (length (bytes "world")) <= @MAX_SYM_LEN demo_runtime /\
  @hash_symbol demo_runtime (bytes "world") 5
  = @hash_symbol demo_runtime (bytes "world") (Z.of_nat (length (bytes "world"))) /\
  0 <= @hash_symbol demo_runtime (bytes "world") 5 < 2 ^ 64.
Proof.
  apply (@stored_symbols_well_formed demo_runtime [bytes "world"; bytes "hello"]
           demo_state2 40
           {| sym_left := NULL; sym_right := NULL;
              sym_hash := @hash_symbol demo_runtime (bytes "world") 5;
              sym_name := bytes "world" |}).
  - apply demo_state2_reachable.
  - vm_compute. reflexivity.
Defined.

(** ** The shape of the table *)

(** What a slot holds after a publication, in terms of what it held. *)
Lemma attached_load_inv st st' sl p nd0 sl' v :
  attached st st' sl p nd0 -> sl' <> sl -> load st' sl' = Some v ->
  load st sl' = Some v \/ v = NULL.
Proof.
  intros (Hfresh & _ & _ & (nd' & Hnd' & _ & _ & Hl' & Hr') & _ & Hload & _ & Hdom & _)
    Hne Hl.
  assert (forall v0, load st sl' = Some v0 -> load st sl' = Some v) as Hold.
  { intros v0 H0. pose proof (Hload sl' v0 Hne H0). congruence. }
  destruct sl' as [|b|b]; simpl in Hl.
  - left. now apply (Hold (symtab st)).
  - destruct (heap st' !! b) as [nb|] eqn:Hb; [|discriminate]. simpl in Hl.
    destruct (Hdom b nb Hb) as [->|[nb0 Hb0]].
    + right. assert (nb = nd') as -> by congruence. congruence.
    + left. apply (Hold (sym_left nb0)). simpl. now rewrite Hb0.
  - destruct (heap st' !! b) as [nb|] eqn:Hb; [|discriminate]. simpl in Hl.
    destruct (Hdom b nb Hb) as [->|[nb0 Hb0]].
    + right. assert (nb = nd') as -> by congruence. congruence.
    + left. apply (Hold (sym_right nb0)). simpl. now rewrite Hb0.
Qed.

(** X14.  A reachable table is a tree: every symbol is held by exactly one
    slot, the root or one child pointer of one other symbol. *)
Theorem one_slot_per_symbol {R : Runtime} log st a nd :
  reachable log st -> heap st !! a = Some nd ->
  exists sl, load st sl = Some a /\ forall sl', load st sl' = Some a -> sl' = sl.
Proof.
  intros Hreach. revert a nd.
  induction Hreach as [|log st str len sym st' Hreach IH Hv Hnul Hret|log st ctr _ IH];
    intros a nd Ha.
  - unfold init_state in Ha. cbn [heap] in Ha. now rewrite lookup_empty in Ha.
  - pose proof (reachable_wf _ _ Hreach) as Hwf.
    destruct (_jl_symbol_cases st str len sym st' Hwf Hv Hnul Hret)
      as [[-> _] | (sl & _ & _ & _ & Hatt)]; [now apply (IH a nd)|].
    pose proof Hatt as (Hfresh & Hp & Hsl & _ & Hsl' & Hload & _ & Hdom & _).
    destruct (Hdom a nd Ha) as [->|[nd0 H0]].
    + exists sl. split; [exact Hsl'|]. intros sl' Hl'.
      destruct (decide (sl' = sl)) as [|Hne]; [assumption|]. exfalso.
      destruct (attached_load_inv st st' sl sym _ sl' sym Hatt Hne Hl') as [Hold|Hnull];
        [|contradiction].
      destruct (reachable_load_in log st sl' sym Hreach Hold) as [|[x Hx]];
        [contradiction | congruence].
    + pose proof (wf_dom st Hwf a nd0 H0) as Hdoma.
      assert (a <> NULL) as Hnz by (unfold NULL; lia).
      destruct (IH a nd0 H0) as (sla & Hla & Huniq).
      assert (sla <> sl) as Hne by (intros ->; congruence).
      exists sla. split; [now apply Hload|]. intros sl' Hl'.
      assert (sl' <> sl) as Hne'.
      { intros ->. rewrite Hsl' in Hl'. injection Hl' as ->. congruence. }
      destruct (attached_load_inv st st' sl sym _ sl' a Hatt Hne' Hl') as [Hold|Hnull];
        [now apply Huniq | contradiction].
  - now apply (IH a nd).
Qed.

Lemma one_slot_per_symbol_witness :
  exists sl, load demo_state2 sl = Some 40 /\
             forall sl', load demo_state2 sl' = Some 40 -> sl' = sl.
Proof.
  apply (@one_slot_per_symbol demo_runtime [bytes "world"; bytes "hello"] demo_state2 40
           {| sym_left := NULL; sym_right := NULL;
              sym_hash := @hash_symbol demo_runtime (bytes "world") 5;
              sym_name := bytes "world" |}).
  - apply demo_state2_reachable.
  - vm_compute. reflexivity.
Defined.

(** X15.  One visit of the lookup loop reports a match exactly when the
    probe's hash is the node's hash and the probe's bytes are the node's
    name: a proper prefix, a longer name, or another name with the same
    hash is not a match. *)
Theorem symtab_cmp_match_exact h (s : list byte) node nd :
  memchr0 s = false -> memchr0 (sym_name nd) = false ->
  0 <= h < 2 ^ 64 -> 0 <= sym_hash nd < 2 ^ 64 ->
  (symtab_cmp h s (Z.of_nat (length s)) node nd = inl node
   <-> h = sym_hash nd /\ s = sym_name nd).
Proof.
  intros Hs Hn Hh Hnh. split.
  - intros Hc. apply symtab_cmp_inl in Hc as (_ & Hx & Hcmp & Hend).
    rewrite Nat2Z.id in Hcmp, Hend. split.
    + now apply (to_intptr_t_zero h (sym_hash nd)).
    + now apply strncmp_eq.
  - intros [-> ->]. apply symtab_cmp_self.
Qed.

Lemma symtab_cmp_match_exact_witness :
  symtab_cmp 7 (bytes "ab") (Z.of_nat (length (bytes "ab"))) 8
    {| sym_left := NULL; sym_right := NULL; sym_hash := 7; sym_name := bytes "abc" |}
  = inl 8
  <-> 7 = 7 /\ bytes "ab" = bytes "abc".
Proof.
  apply (symtab_cmp_match_exact 7 (bytes "ab") 8
           {| sym_left := NULL; sym_right := NULL; sym_hash := 7; sym_name := bytes "abc" |});
    try reflexivity; simpl; lia.
Defined.
